(** * ComponentSource: the component catalogue of the fractal renderer

    A shallow embedding of [src/components/source.js]: the render
    pipeline ([render], [_renderVariant], [_renderCollatedComponent],
    [_wrapInLayout], [renderString]), the status registry ([statusInfo]),
    the tree lookup ([find]) and the five file classifiers, followed by
    the properties that the specification states about them.

    Promises and generator bodies run by [co] are computations in a
    writer-and-error monad: a computation yields the events it caused up
    to its settlement, in order, and either the value it resolved with
    or the error it was rejected with. Collaborators whose code lives in other modules (the
    templating engine, the context resolver, the tree loader, the
    filesystem, the glob matcher) are fields of the [ComponentSource]
    record or are modelled from their documented behaviour. *)

From Stdlib Require Import ZArith Ascii.
From stdpp Require Import gmap strings list fin_maps sorting.

#[local] Set Warnings "-register-all".

(* ===================================================================== *)
(** ** JavaScript values                                                   *)
(* ===================================================================== *)

(** The data that contexts, status records and serialized entities are
    made of. Numbers are restricted to integers. An object is given by
    its own properties; what a plain object inherits is read by [member]
    below. The only functions met here are those that every object
    inherits; one is told by the property under which it is found. *)
Inductive value : Type :=
| VUndefined
| VNull
| VBool (b : bool)
| VNum (n : Z)
| VStr (s : string)
| VArr (elements : list value)
| VObj (props : gmap string value)
| VFunction (property : string).

Abbreviation obj := (gmap string value).

(** ToBoolean. *)
Definition truthy (v : value) : bool :=
  match v with
  | VUndefined | VNull => false
  | VBool b => b
  | VNum n => negb (n =? 0)%Z
  | VStr s => negb (String.eqb s "")
  | VArr _ | VObj _ | VFunction _ => true
  end.

(** [a || b]. *)
Definition js_or (a b : value) : value := if truthy a then a else b.

(** The own property [k] of an object, [undefined] when there is none.
    This is [o[k]] for every key that no prototype provides, as are the
    keys that the render pipeline reads, which begin with [@]; reading
    such a key of a primitive gives [undefined] too. *)
Definition prop (o : obj) (k : string) : value := default VUndefined (o !! k).

Definition get (v : value) (k : string) : value :=
  match v with
  | VObj o => prop o k
  | _ => VUndefined
  end.

(** The names that every plain object inherits from [Object.prototype];
    they hold functions, and [__proto__] gives the prototype itself. *)
Definition Object_prototype_names : list string :=
  ["constructor"; "hasOwnProperty"; "isPrototypeOf"; "propertyIsEnumerable";
   "toLocaleString"; "toString"; "valueOf";
   "__defineGetter__"; "__defineSetter__"; "__lookupGetter__"; "__lookupSetter__"].

Definition Object_prototype : obj :=
  list_to_map ((λ name, (name, VFunction name)) <$> Object_prototype_names).

(** [o[k]] on a plain object for any key: an own property first, and
    otherwise what the prototype chain gives. *)
Definition member (o : obj) (k : string) : value :=
  match o !! k with
  | Some v => v
  | None =>
      if String.eqb k "__proto__" then VObj Object_prototype
      else prop Object_prototype k
  end.

(** [_.defaults(object, source)]: every key of [source] is assigned to
    [object] when [object[key] === undefined]. *)
Definition defaults (object source : obj) : obj :=
  merge (fun d s =>
           match d, s with
           | Some VUndefined, Some v => Some v
           | Some w, _ => Some w
           | None, s => s
           end) object source.

(** [_.compact]: the truthy elements, in order. *)
Definition compact (l : list value) : list value := List.filter truthy l.

(** [_.uniq] on strings: the first occurrence of each element, in order. *)
Fixpoint uniq_from (seen l : list string) : list string :=
  match l with
  | [] => []
  | x :: r =>
      if bool_decide (x ∈ seen) then uniq_from seen r
      else x :: uniq_from (x :: seen) r
  end.

Definition uniq (l : list string) : list string := uniq_from [] l.

Definition newline : string := String "010"%char EmptyString.

(** A markup is a string, or [undefined] when there is none. *)
Definition markup_value (markup : option string) : value :=
  match markup with
  | Some s => VStr s
  | None => VUndefined
  end.

(** [Array.prototype.join] on an array of markups: [undefined] elements
    contribute the empty string. *)
Definition join (sep : string) (l : list (option string)) : string :=
  String.concat sep (List.map (default EmptyString) l).

(** [String.prototype.toLowerCase], on ASCII letters. *)
Definition lower_char (c : ascii) : ascii :=
  let n := nat_of_ascii c in
  if (65 <=? n)%nat && (n <=? 90)%nat then ascii_of_nat (n + 32) else c.

Fixpoint toLowerCase (s : string) : string :=
  match s with
  | EmptyString => EmptyString
  | String c r => String (lower_char c) (toLowerCase r)
  end.

(** [s.startsWith('@')] and [s.replace('@', '')] (first occurrence). *)
Definition startsWith_at (s : string) : bool :=
  match s with
  | String "@"%char _ => true
  | _ => false
  end.

Fixpoint replace_at (s : string) : string :=
  match s with
  | EmptyString => EmptyString
  | String c r => if Ascii.eqb c "@"%char then r else String c (replace_at r)
  end.

(* ===================================================================== *)
(** ** Promises, failures and the diagnostics sink                         *)
(* ===================================================================== *)

Inductive error : Type :=
| RejectedNull                 (* Promise.reject(null) *)
| Error (message : string)     (* new Error(...) and collaborator failures *)
| TypeError (message : string).

(** What [console.error] is handed: an error object or a message. *)
Inductive logged : Type :=
| LogError (e : error)
| LogMessage (s : string).

(** The observable events of a run: diagnostics written through
    [console.error], and invocations of the templating engine with the
    arguments it was given. *)
Inductive event : Type :=
| ConsoleError (a : logged)
| EngineRender (viewPath : option string) (str : string) (context : value).

Inductive result (A : Type) : Type :=
| Resolved (a : A)
| Rejected (e : error).
Arguments Resolved {A} a.
Arguments Rejected {A} e.

(** A settled asynchronous computation: the events up to its settlement,
    in order, then its outcome. *)
Definition Async (A : Type) : Type := list event * result A.

Definition resolved {A} (a : A) : Async A := ([], Resolved a).
Definition throw {A} (e : error) : Async A := ([], Rejected e).

(** [yield p] inside [co], or [p.then(k)]. *)
Definition andThen {A B} (m : Async A) (k : A → Async B) : Async B :=
  match m with
  | (t, Resolved a) => let '(t', r) := k a in (t ++ t', r)
  | (t, Rejected e) => (t, Rejected e)
  end.

#[global] Instance Async_ret : MRet Async := @resolved.
#[global] Instance Async_bind : MBind Async := fun A B k m => andThen m k.

(** [p.catch(handler)]. *)
Definition catch {A} (m : Async A) (handler : error → Async A) : Async A :=
  match m with
  | (t, Rejected e) => let '(t', r) := handler e in (t ++ t', r)
  | settled => settled
  end.

(** A collaborator's outcome, awaited. *)
Definition await {A} (r : result A) : Async A := ([], r).

(** [console.error(a)]. *)
Definition console_error (a : logged) : Async unit := ([ConsoleError a], Resolved tt).

Definition events {A} (m : Async A) : list event := fst m.
Definition outcome {A} (m : Async A) : result A := snd m.

(** [yield [p0, p1, ...]] inside [co], that is [Promise.all]: the tasks
    have all been issued; they settle one after the other in an order
    that depends on how long each one takes. Task [i] takes [latency i].
    A settled task stores its value in slot [i] of the result array. The
    first task to be rejected rejects the whole there and then. The
    tasks that have not settled by then are not cancelled: they run on,
    and what they cause comes after whatever the caller does about the
    rejection; these late events are kept apart ([stragglers]). *)
Definition completion_order (latency : nat → nat) (n : nat) : list nat :=
  merge_sort (λ i j, latency i ≤ latency j)
             (H := λ i j, decide (latency i ≤ latency j)) (seq 0 n).

Record gathering (A : Type) : Type := Gathering {
  trail : list event;
  slots : list (option A);
  rejection : option error;
  late : list event
}.
Arguments Gathering {A} _ _ _ _.
Arguments trail {A} _.
Arguments slots {A} _.
Arguments rejection {A} _.
Arguments late {A} _.

Definition settle {A} (tasks : list (Async A)) (g : gathering A) (i : nat) : gathering A :=
  match tasks !! i with
  | None => g
  | Some (t, r) =>
      match rejection g with
      | Some _ => Gathering (trail g) (slots g) (rejection g) (late g ++ t)
      | None =>
          match r with
          | Resolved a => Gathering (trail g ++ t) (<[i := Some a]> (slots g)) None (late g)
          | Rejected e => Gathering (trail g ++ t) (slots g) (Some e) (late g)
          end
      end
  end.

Definition gather {A} (latency : nat → nat) (tasks : list (Async A)) : gathering A :=
  let n := length tasks in
  foldl (settle tasks) (Gathering [] (replicate n None) None []) (completion_order latency n).

Definition all {A} (latency : nat → nat) (tasks : list (Async A)) : Async (list A) :=
  let g := gather latency tasks in
  match rejection g with
  | Some e => (trail g, Rejected e)
  | None => (trail g, Resolved (omap id (slots g)))
  end.

(** The events of the tasks that settle after the whole was rejected. *)
Definition stragglers {A} (latency : nat → nat) (tasks : list (Async A)) : list event :=
  late (gather latency tasks).

(* ===================================================================== *)
(** ** Entities                                                            *)
(* ===================================================================== *)

Module Variant.
Record t : Type := Make {
  handle : string;
  viewPath : string;
  context : value;
  preview : option string;
  getContent : result string;   (* what [getContent()] settles to *)
  toJSON : value
}.
End Variant.

Module Component.
Record t : Type := Make {
  handle : string;
  collated : bool;
  preview : option string;
  context : value;
  variants : list Variant.t;
  marked : option string;       (* handle of the variant marked as default *)
  toJSON : value
}.
End Component.

(** Modelled from the spec: [variants().default()] of a component's
    variant collection, which lives outside this file. The default is the
    variant explicitly marked, when a variant bears that handle, and the
    first declared variant otherwise; there is none when the component
    has no variant. *)
Definition default_variant (c : Component.t) : option Variant.t :=
  let first := head (Component.variants c) in
  match Component.marked c with
  | Some h =>
      match List.find (λ v, String.eqb (Variant.handle v) h) (Component.variants c) with
      | Some v => Some v
      | None => first
      end
  | None => first
  end.

(** The objects of the tree, told apart by their [type] tag. Of a
    collection only its own [find] method is used here. *)
Inductive entity : Type :=
| IsComponent (c : Component.t)
| IsVariant (v : Variant.t)
| IsCollection (handle : string) (find : string → option entity).

Definition entity_type (e : entity) : string :=
  match e with
  | IsComponent _ => "component"
  | IsVariant _ => "variant"
  | IsCollection _ _ => "collection"
  end.

Definition entity_preview (e : entity) : option string :=
  match e with
  | IsComponent c => Component.preview c
  | IsVariant v => Variant.preview v
  | IsCollection _ _ => None
  end.

Definition entity_toJSON (e : entity) : value :=
  match e with
  | IsComponent c => Component.toJSON c
  | IsVariant v => Variant.toJSON v
  | IsCollection _ _ => VUndefined
  end.

(** What [render] may be handed as its first argument. *)
Inductive argument : Type :=
| Missing                      (* undefined or null *)
| TemplatePath (path : string)
| Entity (e : entity).

(** [!entity] and [_.isString(entity)]. *)
Definition falsy (a : argument) : bool :=
  match a with
  | Missing => true
  | TemplatePath p => String.eqb p ""
  | Entity _ => false
  end.

Definition isString (a : argument) : bool :=
  match a with
  | TemplatePath _ => true
  | _ => false
  end.

Record Options : Type := { useLayout : bool }.

(** A handle used as a condition: [undefined] and [''] are falsy. *)
Definition handle_set (h : option string) : bool :=
  match h with
  | Some s => negb (String.eqb s "")
  | None => false
  end.

(* ===================================================================== *)
(** ** The status taxonomy                                                 *)
(* ===================================================================== *)

Module Taxonomy.
Record t : Type := Make {
  default : string;             (* handle of the default option *)
  mixed_handle : string;        (* [mixed.handle], a string *)
  mixed_details : obj;          (* the other fields of the mixed record *)
  options : obj
}.

(** [this._statuses.mixed]. *)
Definition mixed (s : t) : obj := <["handle" := VStr (mixed_handle s)]> (mixed_details s).
End Taxonomy.

(** The argument of [statusInfo]. *)
Inductive handles : Type :=
| NoHandle                     (* undefined *)
| Handle (h : string)
| Handles (hs : list string).

(* ===================================================================== *)
(** ** The glob matcher                                                    *)
(* ===================================================================== *)

(** Modelled from the spec: the glob matcher collaborator ([anymatch]),
    which is not part of this file. A pattern is a sequence of pieces:
    [**/] matches any run of whole directory segments, [*] any run of
    characters other than [/], a brace list one of its alternatives, and
    literal text itself. The specification asks for these and for
    negation; what an engine does beyond them, such as declining to
    match a path segment that begins with a dot by a wildcard, is not
    part of this model. *)
Module Glob.

Inductive piece : Type :=
| Globstar                     (* "**/" *)
| Star                         (* "*" *)
| Lit (text : string)
| Braces (alternatives : list string).

Definition pattern := list piece.

Definition slash : ascii := "/"%char.

Fixpoint strip_prefix (p s : string) : option string :=
  match p, s with
  | EmptyString, _ => Some s
  | String a p', String b s' => if Ascii.eqb a b then strip_prefix p' s' else None
  | String _ _, EmptyString => None
  end.

(** [star k s]: [k] accepts what is left of [s] after some run of
    characters other than [/]. *)
Fixpoint star (k : string → bool) (s : string) : bool :=
  k s ||
  match s with
  | EmptyString => false
  | String c r => negb (Ascii.eqb c slash) && star k r
  end.

(** [after_slash k s]: [k] accepts what follows some [/] of [s]. *)
Fixpoint after_slash (k : string → bool) (s : string) : bool :=
  match s with
  | EmptyString => false
  | String c r => (Ascii.eqb c slash && k r) || after_slash k r
  end.

Fixpoint matches (p : pattern) (s : string) : bool :=
  match p with
  | [] => String.eqb s ""
  | Globstar :: p' => matches p' s || after_slash (matches p') s
  | Star :: p' => star (matches p') s
  | Lit t :: p' =>
      match strip_prefix t s with
      | Some r => matches p' r
      | None => false
      end
  | Braces alts :: p' =>
      existsb (λ t, match strip_prefix t s with
                    | Some r => matches p' r
                    | None => false
                    end) alts
  end.

(** A criterion handed to [anymatch]: a glob, or a glob negated by a
    leading [!]. *)
Inductive criterion : Type :=
| Glob (p : pattern)
| Not (p : pattern).

Definition negated (c : criterion) : option pattern :=
  match c with Not p => Some p | Glob _ => None end.

Definition positive (c : criterion) : option pattern :=
  match c with Glob p => Some p | Not _ => None end.

(** [anymatch(criteria, string)]: some glob of the list matches the
    string and none of the negated ones does. *)
Definition anymatch (criteria : list criterion) (s : string) : bool :=
  negb (existsb (λ p, matches p s) (omap negated criteria))
  && existsb (λ p, matches p s) (omap positive criteria).

End Glob.

(* ===================================================================== *)
(** ** The component source                                                *)
(* ===================================================================== *)

Record File : Type := { path : string }.

(** The catalogue: its children, its settings, and the collaborators it
    calls. [engine] is [this.engine().render], [context_resolve] the
    imported [resolve(context, source)], [readFileAsync] the promisified
    [fs.readFile], [load] the tree loader and [_makePredicate] the
    predicate builder inherited from the base class. *)
Record ComponentSource : Type := {
  items : list entity;
  ext : string;
  splitter : string;
  yield : string;
  collator : option (option string → Variant.t → result (option string));
  _statuses : Taxonomy.t;
  engine : option string → string → value → result (option string);
  context_resolve : value → list entity → result obj;
  load : result unit;
  readFileAsync : string → result string;
  _makePredicate : list string → Component.t → bool
}.

Section Methods.

Variable this : ComponentSource.

(** [this.engine().render(viewPath, str, context)]; the invocation is
    recorded with its arguments. *)
Definition engine_render (viewPath : option string) (str : string) (context : value)
  : Async (option string) :=
  ([EngineRender viewPath str context], engine this viewPath str context).

Definition resolve (context : value) : Async obj :=
  await (context_resolve this context (items this)).

Definition renderString (str : string) (context : value) : Async (option string) :=
  engine_render None str context.

(** The specification's account of [renderString], in which the context
    first goes through context resolution; kept apart for comparison with
    the method above. *)
Definition renderString_resolving (str : string) (context : value)
  : Async (option string) :=
  ctx ← resolve context;
  engine_render None str (VObj ctx).

(** *** find, called with one string *)

(** Modelled from the spec: [variants().find('@name')] of a component's
    variant collection looks a variant up by handle. *)
Definition variants_find (c : Component.t) (arg : string) : option Variant.t :=
  List.find (λ v, String.eqb (Variant.handle v) (replace_at arg)) (Component.variants c).

Fixpoint find_item (matcher : Component.t → bool) (arg : string) (l : list entity)
  : option entity :=
  match l with
  | [] => None
  | IsCollection _ collection_find :: r =>
      match collection_find arg with
      | Some search => Some search
      | None => find_item matcher arg r
      end
  | IsComponent c :: r =>
      if matcher c then Some (IsComponent c) else find_item matcher arg r
  | IsVariant _ :: r => find_item matcher arg r
  end.

Fixpoint find_variant (arg : string) (l : list entity) : option entity :=
  match l with
  | [] => None
  | IsComponent c :: r =>
      match variants_find c arg with
      | Some variant => Some (IsVariant variant)
      | None => find_variant arg r
      end
  | _ :: r => find_variant arg r
  end.

Definition find (arg : string) : option entity :=
  if (length (items this) =? 0)%nat then None
  else
    let isHandleFind := startsWith_at arg in
    let matcher :=
      if isHandleFind then _makePredicate this ["handle"; replace_at arg]
      else _makePredicate this [arg] in
    match find_item matcher arg (items this) with
    | Some found => Some found
    | None => if isHandleFind then find_variant arg (items this) else None
    end.

(** *** The render pipeline *)

Definition _renderVariant (variant : option Variant.t) (context : value)
  : Async (option string) :=
  match variant with
  | None => throw (TypeError "Cannot read property 'context' of undefined")
  | Some variant =>
      let context := js_or context (Variant.context variant) in
      content ← await (Variant.getContent variant);
      ctx ← resolve context;
      let ctx := <["_self" := Variant.toJSON variant]> ctx in
      engine_render (Some (Variant.viewPath variant)) content (VObj ctx)
  end.

(** A layout that is a component stands for its default variant. *)
Definition layout_variant (layout : entity) : option entity :=
  match layout with
  | IsComponent c => option_map IsVariant (default_variant c)
  | other => Some other
  end.

Definition _wrapInLayout (content : option string) (previewHandle : string)
  (context : option obj) : Async (option string) :=
  match find previewHandle with
  | None =>
      _ ← console_error (LogMessage ("Preview layout " +:+ previewHandle +:+ " not found."));
      mret content
  | Some layout =>
      match layout_variant layout with
      | None => throw (TypeError "Cannot read property 'context' of undefined")
      | Some (IsVariant layout) =>
          layoutContext ← resolve (Variant.context layout);
          layoutContent ← await (Variant.getContent layout);
          let layoutContext := defaults layoutContext (default ∅ context) in
          let layoutContext := <[yield this := markup_value content]> layoutContext in
          engine_render (Some (Variant.viewPath layout)) layoutContent (VObj layoutContext)
      | Some _ =>
          (* a collection has neither a context nor a content to load *)
          _ ← resolve VUndefined;
          throw (TypeError "layout.getContent is not a function")
      end
  end.

Section Render.

(** The relative latencies of the renders fanned out by a collation. *)
Variable latency : nat → nat.

(** [this.render(variant, ctx)], as called back by the collation. *)
Variable this_render : Variant.t → obj → Async (option string).

(** The context a collation gives a variant: [context['@' + handle]],
    or the variant's own context when that is falsy. *)
Definition variant_context (context : value) (variant : Variant.t) : value :=
  js_or (get context ("@" +:+ Variant.handle variant)) (Variant.context variant).

(** The specification's account of that choice, in which the value under
    the key is taken whenever the key is there; kept apart for
    comparison. *)
Definition variant_context_if_present (context : value) (variant : Variant.t) : value :=
  match context with
  | VObj o => default (Variant.context variant) (o !! ("@" +:+ Variant.handle variant))
  | _ => Variant.context variant
  end.

(** What the collation does for one variant (the function it maps over
    the variants). *)
Definition collate_variant (context : value) (variant : Variant.t)
  : Async (option string) :=
  ctx ← resolve (variant_context context variant);
  markup ← this_render variant ctx;
  match collator this with
  | Some collate => await (collate markup variant)
  | None => mret markup
  end.

Definition _renderCollatedComponent (component : Component.t) (context : value)
  : Async string :=
  let context := js_or context (VObj ∅) in
  markups ← all latency (List.map (collate_variant context) (Component.variants component));
  mret (join newline markups).

(** The generator body that [render] hands to [co]. A component that is
    not collated is replaced by its default variant before it is
    rendered, and it is that variant the layout stage then looks at. *)
Definition pipeline (entity : entity) (context : value) (useLayout : bool)
  : Async (option string) :=
  _ ← await (load this);
  '(entity, rendered) ←
    match entity with
    | IsComponent component =>
        if Component.collated component then
          rendered ← _renderCollatedComponent component context;
          mret (entity, Some rendered)
        else
          let variant := default_variant component in
          rendered ← _renderVariant variant context;
          mret (from_option IsVariant entity variant, rendered)
    | IsVariant variant =>
        rendered ← _renderVariant (Some variant) context;
        mret (entity, rendered)
    | IsCollection _ _ =>
        throw (Error ("Cannot render entity of type " +:+ entity_type entity))
    end;
  if useLayout && handle_set (entity_preview entity) then
    _wrapInLayout rendered (default "" (entity_preview entity))
                  (Some {[ "_target" := entity_toJSON entity ]})
  else mret rendered.

Definition render_with (entity : argument) (context : value) (opts : option Options)
  : Async (option string) :=
  let useLayout := match opts with Some o => useLayout o | None => false end in
  if falsy entity then throw RejectedNull
  else
    match entity with
    | TemplatePath p =>
        content ← await (readFileAsync this p);
        engine_render (Some p) content context
    | Entity e =>
        catch (pipeline e context useLayout)
              (λ err, _ ← console_error (LogError err); mret None)
    | Missing => throw RejectedNull
    end.

End Render.

(** [render(variant, ctx)] on a variant never reaches the collation, so
    the call-back can be closed off there; [render] is then the function
    that calls itself on every variant of a collated component (see
    [render_unfold]). *)
Definition render_variant (latency : nat → nat) (variant : Variant.t) (ctx : obj)
  : Async (option string) :=
  render_with latency (λ _ _, resolved None) (Entity (IsVariant variant)) (VObj ctx) None.

Definition render (latency : nat → nat) (entity : argument) (context : value)
  (opts : option Options) : Async (option string) :=
  render_with latency (render_variant latency) entity context opts.

(** *** The status registry *)

Fixpoint each {A B} (f : A → Async B) (l : list A) : Async (list B) :=
  match l with
  | [] => mret []
  | x :: r => y ← f x; ys ← each f r; mret (y :: ys)
  end.

(** [statusInfo] on one handle: the last three tests of the method. The
    options are a plain object and [options[handle]] is read with any
    string, so a handle that names an inherited property finds it. *)
Definition status_of (handle : string) : Async value :=
  let statuses := _statuses this in
  if String.eqb handle (Taxonomy.mixed_handle statuses) then
    mret (VObj (Taxonomy.mixed statuses))
  else if negb (truthy (member (Taxonomy.options statuses) handle)) then
    _ ← console_error (LogMessage ("Status " +:+ handle +:+ " is not a known option."));
    mret (member (Taxonomy.options statuses) (Taxonomy.default statuses))
  else mret (member (Taxonomy.options statuses) handle).

Definition statusInfo (handle : handles) : Async value :=
  match handle with
  | NoHandle => mret VNull
  | Handles [] => mret VNull
  | Handles handle =>
      let handles := uniq handle in
      match handles with
      | [only] => status_of only
      | _ =>
          resolved_all ← each status_of handles;
          let statuses := compact resolved_all in
          let details := Taxonomy.mixed (_statuses this) in
          mret (VObj (<["statuses" := VArr statuses]> details))
      end
  | Handle handle => status_of handle
  end.

(** *** The file classifiers *)

(** The globs are written as template strings into which the configured
    extension and splitter are interpolated. Text without glob syntax
    stands for itself in a glob, and it is as literal text that the two
    enter the patterns here. *)
Definition view_pattern : Glob.pattern :=
  [Glob.Globstar; Glob.Star; Glob.Lit (ext this)].

Definition variant_view_pattern : Glob.pattern :=
  [Glob.Globstar; Glob.Star; Glob.Lit (splitter this); Glob.Star; Glob.Lit (ext this)].

Definition config_pattern : Glob.pattern :=
  [Glob.Globstar; Glob.Star; Glob.Lit ".config.";
   Glob.Braces ["js"; "json"; "yaml"; "yml"]].

Definition readme_pattern : Glob.pattern := [Glob.Globstar; Glob.Lit "readme.md"].

Definition dotted_pattern : Glob.pattern :=
  [Glob.Globstar; Glob.Star; Glob.Lit "."; Glob.Star].

Definition isView (file : File) : bool :=
  Glob.anymatch [Glob.Glob view_pattern; Glob.Not variant_view_pattern]
                (toLowerCase (path file)).

Definition isVarView (file : File) : bool :=
  Glob.anymatch [Glob.Glob variant_view_pattern] (toLowerCase (path file)).

Definition isConfig (file : File) : bool :=
  Glob.anymatch [Glob.Glob config_pattern] (toLowerCase (path file)).

Definition isReadme (file : File) : bool :=
  Glob.anymatch [Glob.Glob readme_pattern] (toLowerCase (path file)).

Definition isAsset (file : File) : bool :=
  Glob.anymatch [Glob.Glob dotted_pattern; Glob.Not view_pattern;
                 Glob.Not config_pattern; Glob.Not readme_pattern]
                (toLowerCase (path file)).

(** *** renderPreview, components, variants *)

(** [entity.context]. *)
Definition entity_context (e : entity) : value :=
  match e with
  | IsComponent c => Component.context c
  | IsVariant v => Variant.context v
  | IsCollection _ _ => VUndefined
  end.

(** [renderPreview(entity, useLayout)]. Reading [entity.context] of a
    missing entity throws before a promise is made: that is the left
    summand. The flag that the first line works out from [useLayout] is
    not what the call to [render] is given. *)
Definition renderPreview (latency : nat → nat) (entity : argument) (useLayout : value)
  : error + Async (option string) :=
  let flag := match useLayout with VBool false => false | _ => true end in
  match entity with
  | Missing => inl (TypeError "Cannot read property 'context' of undefined")
  | TemplatePath _ => inr (render latency entity VUndefined (Some {| useLayout := true |}))
  | Entity e => inr (render latency entity (entity_context e) (Some {| useLayout := true |}))
  end.

(** Modelled from the spec: [super.entities()], of the base class, gives
    the direct children that are components. *)
Definition components : list Component.t :=
  omap (λ item, match item with IsComponent c => Some c | _ => None end) (items this).

(** [variants()]: the variants of every component, gathered by the loop
    [items = _.concat(items, component.variants().toArray())]. *)
Definition variants : list Variant.t :=
  foldl (λ items component, items ++ Component.variants component) [] components.

End Methods.

(** *** assets *)

(** Modelled from the spec: the collection that [assets] builds belongs
    to another module, and only its construction is at stake here. A
    collection keeps the items it is given as a set: an item that is
    handed over more than once is held once, where it first came. Items
    are told apart by identity, which is the equality of [A] here. *)
Module Collection.

Record t (A : Type) : Type := Make {
  props : obj;
  toArray : list A
}.
Arguments Make {A} _ _.
Arguments props {A} _.
Arguments toArray {A} _.

Fixpoint distinct {A} `{EqDecision A} (seen l : list A) : list A :=
  match l with
  | [] => []
  | x :: r =>
      if bool_decide (x ∈ seen) then distinct seen r
      else x :: distinct (x :: seen) r
  end.

(** [new AssetCollection(props, items)]. *)
Definition new {A} `{EqDecision A} (props : obj) (items : list A) : t A :=
  Make props (distinct [] items).

End Collection.

Section Assets.

Context {Asset : Type} `{EqDecision Asset}.

(** [this.flatten()], the components of the whole tree, and
    [comp.assets().toArray()] belong to other classes. *)
Variable flatten : list Component.t.
Variable component_assets : Component.t → list Asset.

Definition assets : Collection.t Asset :=
  let assets := foldl (λ assets comp, assets ++ component_assets comp) [] flatten in
  Collection.new ∅ assets.

End Assets.

(* ===================================================================== *)
(** ** Notions used in the statements                                      *)
(* ===================================================================== *)

(** The record that [statusInfo] resolves one handle to. *)
Definition resolution (this : ComponentSource) (h : string) : value :=
  match outcome (statusInfo this (Handle h)) with
  | Resolved v => v
  | Rejected _ => VUndefined
  end.




(** Whether layout wrapping was asked for. *)
Definition wants_layout (opts : option Options) : bool :=
  match opts with
  | Some o => useLayout o
  | None => false
  end.

(** The entity that the pipeline goes on with once it has rendered: the
    default variant in place of a component that is not collated. *)
Definition rendered_entity (e : entity) : entity :=
  match e with
  | IsComponent c =>
      if Component.collated c then e else from_option IsVariant e (default_variant c)
  | other => other
  end.

(** The arguments of the engine invocations among some events. *)
Definition engine_invocations (t : list event) : list (option string * string * value) :=
  omap (λ ev, match ev with
              | EngineRender viewPath str context => Some (viewPath, str, context)
              | ConsoleError _ => None
              end) t.

(** The specification's account of deduplication: the distinct handles
    in the order in which they first occur. Kept apart from [uniq] for
    comparison. *)
Fixpoint first_occurrences (l : list string) : list string :=
  match l with
  | [] => []
  | x :: r => x :: List.filter (λ y, negb (String.eqb y x)) (first_occurrences r)
  end.

(** A name that a plain object answers to without owning it. *)
Definition inherited (k : string) : bool :=
  bool_decide (k ∈ "__proto__" :: Object_prototype_names).

(** The warning of [statusInfo], and the handles that get it: those
    that are not the mixed handle and for which the options hold a falsy
    value or, no inherited name being asked for, nothing at all. *)
Definition status_warning (h : string) : event :=
  ConsoleError (LogMessage ("Status " +:+ h +:+ " is not a known option.")).

Definition unknown_status (this : ComponentSource) (h : string) : bool :=
  negb (String.eqb h (Taxonomy.mixed_handle (_statuses this)))
  && match Taxonomy.options (_statuses this) !! h with
     | Some v => negb (truthy v)
     | None => negb (inherited h)
     end.

(** What a render goes on causing after its promise has settled: the
    events of the variants of a collation that were still pending when
    the collation was rejected. *)
Definition render_aftermath (this : ComponentSource) (latency : nat → nat)
  (e : entity) (context : value) : list event :=
  match e, load this with
  | IsComponent c, Resolved _ =>
      if Component.collated c then
        stragglers latency
          (List.map (collate_variant this (render_variant this latency)
                       (js_or context (VObj ∅)))
                    (Component.variants c))
      else []
  | _, _ => []
  end.



(** Text in which a glob engine finds nothing to interpret: letters,
    digits, and the characters [.], [-], [_] and [~]. *)
Definition plain_char (c : ascii) : bool :=
  let n := nat_of_ascii c in
  ((48 <=? n)%nat && (n <=? 57)%nat) || ((65 <=? n)%nat && (n <=? 90)%nat)
  || ((97 <=? n)%nat && (n <=? 122)%nat)
  || Ascii.eqb c "."%char || Ascii.eqb c "-"%char || Ascii.eqb c "_"%char
  || Ascii.eqb c "~"%char.

Fixpoint plain (s : string) : bool :=
  match s with
  | EmptyString => true
  | String c r => plain_char c && plain r
  end.

(** The predicate that [find] tries on the components, and what one
    child answers to a search. *)
Definition find_matcher (this : ComponentSource) (arg : string) : Component.t → bool :=
  if startsWith_at arg then _makePredicate this ["handle"; replace_at arg]
  else _makePredicate this [arg].

Definition hit (matcher : Component.t → bool) (arg : string) (item : entity)
  : option entity :=
  match item with
  | IsCollection _ collection_find => collection_find arg
  | IsComponent c => if matcher c then Some item else None
  | IsVariant _ => None
  end.

(** Upper-case ASCII letters in a string. *)
Definition is_upper (c : ascii) : bool :=
  (65 <=? nat_of_ascii c)%nat && (nat_of_ascii c <=? 90)%nat.

Fixpoint has_upper (s : string) : bool :=
  match s with
  | EmptyString => false
  | String c r => is_upper c || has_upper r
  end.

(** The last character of a string. *)
Fixpoint last_char (s : string) : option ascii :=
  match s with
  | EmptyString => None
  | String c r => match last_char r with Some d => Some d | None => Some c end
  end.

(* ===================================================================== *)
(** ** A small catalogue                                                   *)
(* ===================================================================== *)

(** A catalogue with a button (two variants), a collated card (three
    variants) and a preview layout, used to run the definitions. Its
    engine prints the template source followed by the [title] and the
    yielded body found in the context; its resolver expands the
    reference ["@site"] in a title. *)
Module Demo.

Definition text (v : value) : string :=
  match v with
  | VStr s => s
  | _ => "-"
  end.

Definition print (viewPath : option string) (str : string) (context : value)
  : result (option string) :=
  Resolved (Some (str +:+ "[" +:+ text (get context "title") +:+ "]"
                      +:+ text (get context "yield"))).

Definition expand (context : value) (tree : list entity) : result obj :=
  match context with
  | VObj o =>
      match o !! "title" with
      | Some (VStr "@site") => Resolved (<["title" := VStr "Fractal"]> o)
      | Some (VStr "@missing") => Rejected (Error "Unknown reference @missing")
      | _ => Resolved o
      end
  | _ => Resolved ∅
  end.

Definition titled (s : string) : value := VObj {[ "title" := VStr s ]}.

Definition variant (handle view title : string) : Variant.t :=
  Variant.Make handle view (titled title) (Some "@preview")
               (Resolved ("<" +:+ handle +:+ ">"))
               (VObj {[ "handle" := VStr handle ]}).

Definition large : Variant.t := variant "large" "button~large.hbs" "Large".
Definition small : Variant.t := variant "small" "button~small.hbs" "Small".

Definition button : Component.t :=
  Component.Make "button" false (Some "@preview") (titled "Button")
                 [large; small] None (VObj {[ "handle" := VStr "button" ]}).

Definition a : Variant.t := variant "a" "card~a.hbs" "A".
Definition b : Variant.t := variant "b" "card~b.hbs" "B".
Definition c : Variant.t := variant "c" "card~c.hbs" "C".

Definition card : Component.t :=
  Component.Make "card" true None (titled "Card")
                 [a; b; c] None (VObj {[ "handle" := VStr "card" ]}).

(** A variant whose template cannot be read, and a collated component
    that has it among its variants. *)
Definition unreadable : Variant.t :=
  Variant.Make "unreadable" "gone.hbs" (titled "Gone") None
               (Rejected (Error "ENOENT: gone.hbs")) (VObj {[ "handle" := VStr "unreadable" ]}).

Definition patchy : Component.t :=
  Component.Make "patchy" true None (titled "Patchy")
                 [a; unreadable; c] None (VObj {[ "handle" := VStr "patchy" ]}).

Definition frame : Variant.t :=
  Variant.Make "frame" "preview.hbs" (VObj {[ "title" := VStr "Preview"; "lang" := VStr "en" ]})
               None (Resolved "<html>") (VObj {[ "handle" := VStr "frame" ]}).

Definition preview : Component.t :=
  Component.Make "preview" false None (VObj ∅) [frame] None
                 (VObj {[ "handle" := VStr "preview" ]}).

Definition section_find (arg : string) : option entity := None.

Definition makePredicate (args : list string) (c : Component.t) : bool :=
  match args with
  | [field; wanted] => String.eqb field "handle" && String.eqb (Component.handle c) wanted
  | _ => false
  end.

Definition statuses : Taxonomy.t :=
  Taxonomy.Make "ready" "mixed" {[ "label" := VStr "Mixed" ]}
    {[ "ready" := VObj {[ "handle" := VStr "ready"; "label" := VStr "Ready" ]};
       "wip" := VObj {[ "handle" := VStr "wip"; "label" := VStr "WIP" ]} ]}.

Definition source : ComponentSource :=
  {| items := [IsCollection "atoms" section_find; IsComponent button;
               IsComponent card; IsComponent preview];
     ext := ".hbs";
     splitter := "~";
     yield := "yield";
     collator := None;
     _statuses := statuses;
     engine := print;
     context_resolve := expand;
     load := Resolved tt;
     readFileAsync := λ p, Resolved "<raw>";
     _makePredicate := makePredicate |}.

(** The same catalogue with a collator that brackets each markup. *)
Definition bracket (markup : option string) (v : Variant.t) : result (option string) :=
  Resolved (Some ("(" +:+ Variant.handle v +:+ " " +:+ default "" markup +:+ ")")).

Definition collating : ComponentSource :=
  {| items := items source; ext := ext source; splitter := splitter source;
     yield := yield source; collator := Some bracket; _statuses := statuses;
     engine := print; context_resolve := expand; load := Resolved tt;
     readFileAsync := readFileAsync source; _makePredicate := makePredicate |}.

(** The same catalogue with an engine that renders nothing. *)
Definition mute : ComponentSource :=
  {| items := items source; ext := ext source; splitter := splitter source;
     yield := yield source; collator := None; _statuses := statuses;
     engine := λ _ _ _, Resolved None; context_resolve := expand; load := Resolved tt;
     readFileAsync := readFileAsync source; _makePredicate := makePredicate |}.

(** A taxonomy whose default handle is the mixed handle. *)
Definition odd_statuses : Taxonomy.t :=
  Taxonomy.Make "mixed" "mixed" {[ "label" := VStr "Mixed" ]}
    {[ "ready" := VObj {[ "handle" := VStr "ready"; "label" := VStr "Ready" ]};
       "mixed" := VObj {[ "handle" := VStr "mixed"; "label" := VStr "Unsorted" ]} ]}.

Definition odd : ComponentSource :=
  {| items := items source; ext := ext source; splitter := splitter source;
     yield := yield source; collator := None; _statuses := odd_statuses;
     engine := print; context_resolve := expand; load := Resolved tt;
     readFileAsync := readFileAsync source; _makePredicate := makePredicate |}.

(** A taxonomy whose default handle names no option. *)
Definition sparse_statuses : Taxonomy.t :=
  Taxonomy.Make "none" "mixed" {[ "label" := VStr "Mixed" ]}
    {[ "ready" := VObj {[ "handle" := VStr "ready"; "label" := VStr "Ready" ]};
       "wip" := VObj {[ "handle" := VStr "wip"; "label" := VStr "WIP" ]} ]}.

Definition sparse : ComponentSource :=
  {| items := items source; ext := ext source; splitter := splitter source;
     yield := yield source; collator := None; _statuses := sparse_statuses;
     engine := print; context_resolve := expand; load := Resolved tt;
     readFileAsync := readFileAsync source; _makePredicate := makePredicate |}.

(** The same catalogue configured with an upper-case extension. *)
Definition shouting : ComponentSource :=
  {| items := items source; ext := ".HBS"; splitter := splitter source;
     yield := yield source; collator := None; _statuses := statuses;
     engine := print; context_resolve := expand; load := Resolved tt;
     readFileAsync := readFileAsync source; _makePredicate := makePredicate |}.

(** A layout whose template cannot be read, a variant that asks for it,
    and a catalogue that holds both. *)
Definition torn : Variant.t :=
  Variant.Make "torn" "torn.hbs" (titled "Torn") None
               (Rejected (Error "ENOENT: torn.hbs")) (VObj {[ "handle" := VStr "torn" ]}).

Definition tearing : Component.t :=
  Component.Make "tearing" false None (VObj ∅) [torn] None
                 (VObj {[ "handle" := VStr "tearing" ]}).

Definition boxed : Variant.t :=
  Variant.Make "boxed" "boxed.hbs" (titled "Boxed") (Some "@tearing")
               (Resolved "<box>") (VObj {[ "handle" := VStr "boxed" ]}).

Definition fragile : ComponentSource :=
  {| items := [IsComponent button; IsComponent tearing]; ext := ext source;
     splitter := splitter source; yield := yield source; collator := None;
     _statuses := statuses; engine := print; context_resolve := expand;
     load := Resolved tt; readFileAsync := readFileAsync source;
     _makePredicate := makePredicate |}.

(** A component with no variant, collated or not. *)
Definition bare (collated : bool) : Component.t :=
  Component.Make "bare" collated None (titled "Bare") [] None
                 (VObj {[ "handle" := VStr "bare" ]}).

(** A variant whose context refers to an entity that is not there, and
    a collated component that has it between two sound variants. *)
Definition dangling : Variant.t := variant "dangling" "card~dangling.hbs" "@missing".

Definition cracked : Component.t :=
  Component.Make "cracked" true None (titled "Cracked")
                 [a; dangling; c] None (VObj {[ "handle" := VStr "cracked" ]}).

(** Latencies under which the variants of a collation settle in issue
    order, and in the reverse order. *)
Definition in_turn (i : nat) : nat := i.
Definition last_first (i : nat) : nat := 10 - i.

End Demo.

(* ===================================================================== *)
(** ** Laws of the effect model                                            *)
(* ===================================================================== *)

Lemma bind_resolved {A B} (t : list event) (a : A) (k : A → Async B) :
  ((t, Resolved a) : Async A) ≫= k = (t ++ events (k a), outcome (k a)).
Proof. unfold mbind, Async_bind, andThen. by destruct (k a). Qed.

Lemma bind_await {A B} (r : result A) (k : A → Async B) :
  await r ≫= k = match r with Resolved a => k a | Rejected e => throw e end.
Proof.
  destruct r; [|reflexivity].
  unfold await. rewrite bind_resolved. by destruct (k a).
Qed.

Lemma outcome_bind {A B} (m : Async A) (k : A → Async B) :
  outcome (m ≫= k) =
    match outcome m with
    | Resolved a => outcome (k a)
    | Rejected e => Rejected e
    end.
Proof. destruct m as [t [a|e]]; [by rewrite bind_resolved | reflexivity]. Qed.

Lemma events_bind {A B} (m : Async A) (k : A → Async B) :
  events (m ≫= k) =
    match outcome m with
    | Resolved a => events m ++ events (k a)
    | Rejected e => events m
    end.
Proof. destruct m as [t [a|e]]; [by rewrite bind_resolved | reflexivity]. Qed.

Lemma outcome_catch {A} (m : Async A) (h : error → Async A) :
  outcome (catch m h) =
    match outcome m with
    | Resolved a => Resolved a
    | Rejected e => outcome (h e)
    end.
Proof. destruct m as [t [a|e]]; [reflexivity|]. simpl. by destruct (h e). Qed.

Lemma events_catch {A} (m : Async A) (h : error → Async A) :
  events (catch m h) =
    match outcome m with
    | Resolved a => events m
    | Rejected e => events m ++ events (h e)
    end.
Proof. destruct m as [t [a|e]]; [reflexivity|]. simpl. by destruct (h e). Qed.




Lemma bind_assoc {A B C} (m : Async A) (k : A → Async B) (h : B → Async C) :
  (m ≫= k) ≫= h = m ≫= (λ a, k a ≫= h).
Proof.
  destruct m as [t [a|e]]; [|reflexivity].
  rewrite !bind_resolved. destruct (k a) as [t' [b|e']]; [|reflexivity].
  unfold events, outcome, fst, snd. rewrite !bind_resolved.
  by rewrite app_assoc.
Qed.

Lemma bind_mret_l {A B} (a : A) (k : A → Async B) : mret a ≫= k = k a.
Proof. unfold mret, Async_ret, resolved. rewrite bind_resolved. by destruct (k a). Qed.

Lemma bind_pure {A B} (a : A) (k : A → Async B) : (([], Resolved a) : Async A) ≫= k = k a.
Proof. apply bind_mret_l. Qed.

Lemma bind_mret_r {A} (m : Async A) : m ≫= mret = m.
Proof.
  destruct m as [t [a|e]]; [|reflexivity].
  rewrite bind_resolved. simpl. by rewrite app_nil_r.
Qed.

Lemma bind_ext {A B} (m : Async A) (k k' : A → Async B) :
  (∀ a, k a = k' a) → m ≫= k = m ≫= k'.
Proof.
  intros Hk. destruct m as [t [a|e]]; [|reflexivity].
  by rewrite !bind_resolved, Hk.
Qed.

Lemma js_or_falsy (a b : value) : truthy a = false → js_or a b = b.
Proof. unfold js_or. by intros ->. Qed.

Lemma all_nil {A} (latency : nat → nat) : all latency ([] : list (Async A)) = ([], Resolved []).
Proof. reflexivity. Qed.

(* ===================================================================== *)
(** ** Lists and objects                                                   *)
(* ===================================================================== *)

Lemma map_fmap {A B} (f : A → B) (l : list A) : List.map f l = f <$> l.
Proof. induction l as [|x l IH]; [done|]. simpl. by rewrite IH. Qed.

Lemma filter_all {A} (f : A → bool) (l : list A) :
  (∀ x, x ∈ l → f x = true) → List.filter f l = l.
Proof.
  induction l as [|x l IH]; intros H; simpl; [done|].
  rewrite H by apply list_elem_of_here. f_equal. apply IH.
  intros y Hy. apply H. by apply list_elem_of_further.
Qed.

(** Reading a key of [_.defaults(object, source)]. *)
Lemma defaults_lookup (object source : obj) (k : string) :
  prop (defaults object source) k =
    match prop object k with
    | VUndefined => prop source k
    | v => v
    end.
Proof.
  unfold defaults, prop. rewrite lookup_merge.
  destruct (object !! k) as [[]|], (source !! k) as [?|]; reflexivity.
Qed.

(** *** [uniq] keeps the first occurrence of each element *)

Lemma uniq_from_elem (seen l : list string) (x : string) :
  x ∈ uniq_from seen l ↔ x ∈ l ∧ x ∉ seen.
Proof.
  revert seen. induction l as [|y l IH]; intros seen; simpl.
  - split; [by intros ?%elem_of_nil | by intros [?%elem_of_nil _]].
  - case_bool_decide as Hy.
    + rewrite IH, elem_of_cons. split.
      * intros [? ?]. split; [by right | done].
      * intros [[->|?] ?]; [done | by split].
    + rewrite !elem_of_cons, IH, elem_of_cons. split.
      * intros [->|[? Hx]]; [by split; [left|] |].
        split; [by right|]. intros ?. apply Hx. by right.
      * intros [[->|?] ?]; [by left|].
        destruct (decide (x = y)) as [->|Hne]; [by left | right].
        split; [done|]. by intros [?|?].
Qed.

Lemma uniq_from_NoDup (seen l : list string) : NoDup (uniq_from seen l).
Proof.
  revert seen. induction l as [|y l IH]; intros seen; simpl; [constructor|].
  case_bool_decide; [apply IH|].
  constructor; [|apply IH].
  rewrite uniq_from_elem, elem_of_cons. intros [_ Hy]. apply Hy. by left.
Qed.

Lemma uniq_from_seen (seen seen' l : list string) :
  (∀ x, x ∈ seen ↔ x ∈ seen') → uniq_from seen l = uniq_from seen' l.
Proof.
  revert seen seen'. induction l as [|y l IH]; intros seen seen' Hs; simpl; [done|].
  rewrite (bool_decide_ext (y ∈ seen) (y ∈ seen')) by apply Hs.
  case_bool_decide; [by apply IH|].
  f_equal. apply IH. intros x. rewrite !elem_of_cons, Hs. done.
Qed.

Lemma uniq_from_cons_seen (seen l : list string) (x : string) :
  uniq_from (x :: seen) l = List.filter (λ y, negb (String.eqb y x)) (uniq_from seen l).
Proof.
  revert seen. induction l as [|y l IH]; intros seen; simpl; [done|].
  destruct (String.eqb_spec y x) as [->|Hne].
  - rewrite bool_decide_eq_true_2 by apply list_elem_of_here.
    case_bool_decide as Hx; [apply IH|].
    simpl. rewrite String.eqb_refl. simpl.
    symmetry. apply filter_all. intros z Hz.
    apply uniq_from_elem in Hz as [_ Hz].
    destruct (String.eqb_spec z x) as [->|]; [|done].
    exfalso. apply Hz. apply list_elem_of_here.
  - rewrite (bool_decide_ext (y ∈ x :: seen) (y ∈ seen)).
    2:{ rewrite elem_of_cons. split; [by intros [?|?] | by right]. }
    case_bool_decide; [apply IH|].
    simpl. destruct (String.eqb_spec y x) as [?|_]; [done|]. simpl. f_equal.
    rewrite <- IH. apply uniq_from_seen. intros z. rewrite !elem_of_cons.
    split; intros [?|[?|?]]; auto.
Qed.

(** The head stays, and is removed from what [uniq] keeps of the tail. *)
Lemma uniq_cons (x : string) (l : list string) :
  uniq (x :: l) = x :: List.filter (λ y, negb (String.eqb y x)) (uniq l).
Proof. unfold uniq. simpl. f_equal. apply uniq_from_cons_seen. Qed.

Lemma elem_of_uniq (l : list string) (x : string) : x ∈ uniq l ↔ x ∈ l.
Proof.
  unfold uniq. rewrite uniq_from_elem. split; [by intros [? _]|].
  intros ?. split; [done | apply not_elem_of_nil].
Qed.

Lemma uniq_NoDup (l : list string) : NoDup (uniq l).
Proof. apply uniq_from_NoDup. Qed.

(** [uniq] is the deduplication that the specification describes. *)
Lemma uniq_first_occurrences (l : list string) : uniq l = first_occurrences l.
Proof. induction l as [|x l IH]; [done|]. rewrite uniq_cons. simpl. by rewrite IH. Qed.

(** *** What a plain object answers *)

Lemma Object_prototype_lookup (k : string) :
  Object_prototype !! k =
    if bool_decide (k ∈ Object_prototype_names) then Some (VFunction k) else None.
Proof.
  unfold Object_prototype.
  induction Object_prototype_names as [|name names IH]; [done|].
  csimpl. destruct (decide (k = name)) as [->|Hne].
  - rewrite lookup_insert_eq. by rewrite bool_decide_eq_true_2 by left.
  - rewrite lookup_insert_ne by done. rewrite IH.
    apply (f_equal (λ b : bool, if b then Some (VFunction k) else None)).
    apply bool_decide_ext. rewrite elem_of_cons.
    split; [by right | by intros [?|?]].
Qed.

Lemma member_own (o : obj) (k : string) (v : value) : o !! k = Some v → member o k = v.
Proof. unfold member. by intros ->. Qed.

Lemma member_absent (o : obj) (k : string) :
  o !! k = None → inherited k = false → member o k = VUndefined.
Proof.
  unfold member, inherited. intros -> Hk.
  apply bool_decide_eq_false_1 in Hk. rewrite not_elem_of_cons in Hk.
  destruct Hk as [Hproto Hnames].
  destruct (String.eqb_spec k "__proto__"); [done|].
  unfold prop. rewrite Object_prototype_lookup.
  by rewrite bool_decide_eq_false_2.
Qed.

Lemma member_inherited (o : obj) (k : string) :
  o !! k = None → inherited k = true →
  truthy (member o k) = true ∧ (k ≠ "__proto__" → member o k = VFunction k).
Proof.
  unfold member, inherited. intros -> Hk.
  apply bool_decide_eq_true_1 in Hk.
  destruct (String.eqb_spec k "__proto__") as [->|Hne]; [done|].
  apply elem_of_cons in Hk as [?|Hk]; [done|].
  unfold prop. rewrite Object_prototype_lookup.
  by rewrite bool_decide_eq_true_2.
Qed.

Lemma unknown_status_member (this : ComponentSource) (h : string) :
  unknown_status this h
  = negb (String.eqb h (Taxonomy.mixed_handle (_statuses this)))
    && negb (truthy (member (Taxonomy.options (_statuses this)) h)).
Proof.
  unfold unknown_status. f_equal.
  destruct (Taxonomy.options (_statuses this) !! h) as [v|] eqn:Ho.
  - by rewrite (member_own _ _ v).
  - destruct (inherited h) eqn:Hi.
    + by destruct (member_inherited _ _ Ho Hi) as [-> _].
    + by rewrite member_absent.
Qed.

(* ===================================================================== *)
(** ** Gathering the fanned-out tasks                                      *)
(* ===================================================================== *)

Section All.
Context {A : Type}.
Implicit Types (tasks : list (Async A)) (g : gathering A) (order : list nat).

Lemma completion_order_perm (latency : nat → nat) (n : nat) :
  completion_order latency n ≡ₚ seq 0 n.
Proof. apply merge_sort_Permutation. Qed.


Lemma settle_resolved tasks (values : list A) order g :
  Forall2 (λ task a, outcome task = Resolved a) tasks values →
  rejection g = None →
  length (slots g) = length tasks →
  rejection (foldl (settle tasks) g order) = None
  ∧ late (foldl (settle tasks) g order) = late g
  ∧ length (slots (foldl (settle tasks) g order)) = length tasks
  ∧ ∀ i, i < length tasks →
      slots (foldl (settle tasks) g order) !! i =
        if bool_decide (i ∈ order) then Some (values !! i) else slots g !! i.
Proof.
  intros Hall. revert g. induction order as [|j order IH]; intros g Hrej Hlen.
  - split; [done|]. split; [done|]. split; [done|]. intros i _.
    by rewrite bool_decide_eq_false_2 by apply not_elem_of_nil.
  - simpl. unfold settle at 2 4 6 8. rewrite Hrej.
    destruct (tasks !! j) as [[t [a|e]]|] eqn:Hj.
    + destruct (Forall2_lookup_l _ _ _ _ _ Hall Hj) as (a' & Hv & Ha).
      simpl in Ha. injection Ha as <-.
      destruct (IH (Gathering (trail g ++ t) (<[j := Some a]> (slots g)) None (late g)))
        as (Hr & Hla & Hl & Hs); [done | by simpl; rewrite length_insert |].
      split; [done|]. split; [done|]. split; [done|].
      intros i Hi. rewrite (Hs i Hi). simpl.
      destruct (decide (i ∈ order)) as [Hin|Hnin].
      * rewrite !bool_decide_eq_true_2; [done | by right | done].
      * rewrite (bool_decide_eq_false_2 (i ∈ order)) by done.
        destruct (decide (i = j)) as [->|Hne].
        -- rewrite bool_decide_eq_true_2 by left.
           rewrite list_lookup_insert_eq by (rewrite Hlen; done). by rewrite Hv.
        -- rewrite bool_decide_eq_false_2 by (by intros [?|?]%elem_of_cons).
           by rewrite list_lookup_insert_ne.
    + destruct (Forall2_lookup_l _ _ _ _ _ Hall Hj) as (a' & _ & Ha). done.
    + destruct (IH g) as (Hr & Hla & Hl & Hs); [done..|].
      split; [done|]. split; [done|]. split; [done|].
      intros i Hi. rewrite (Hs i Hi).
      apply lookup_ge_None_1 in Hj.
      destruct (decide (i ∈ order)) as [Hin|Hnin].
      * rewrite !bool_decide_eq_true_2; [done | by right | done].
      * rewrite !bool_decide_eq_false_2; [done | | done].
        intros [->|?]%elem_of_cons; [|done].
        exact (Nat.lt_irrefl _ (Nat.lt_le_trans _ _ _ Hi Hj)).
Qed.

Lemma settle_rejected_stays tasks order g :
  rejection g ≠ None → rejection (foldl (settle tasks) g order) ≠ None.
Proof.
  revert g. induction order as [|j order IH]; intros g Hg; [done|].
  simpl. apply IH. unfold settle.
  destruct (tasks !! j) as [[t r]|]; [|done].
  by destruct (rejection g).
Qed.

Lemma settle_rejected tasks order g i t e :
  tasks !! i = Some (t, Rejected e) → i ∈ order →
  rejection (foldl (settle tasks) g order) ≠ None.
Proof.
  intros Hi. revert g. induction order as [|j order IH]; intros g Hin.
  - by apply elem_of_nil in Hin.
  - simpl. apply elem_of_cons in Hin as [<-|Hin]; [|by apply IH].
    apply settle_rejected_stays. unfold settle. rewrite Hi.
    by destruct (rejection g).
Qed.

(** Once every task has resolved, the array holds their values in the
    order of the tasks, whatever the latencies, and nothing comes late. *)
Lemma gather_resolved (latency : nat → nat) tasks (values : list A) :
  Forall2 (λ task a, outcome task = Resolved a) tasks values →
  rejection (gather latency tasks) = None
  ∧ late (gather latency tasks) = []
  ∧ slots (gather latency tasks) = Some <$> values.
Proof.
  intros Hall. unfold gather.
  destruct (settle_resolved tasks values (completion_order latency (length tasks))
              (Gathering [] (replicate (length tasks) None) None []) Hall)
    as (Hr & Hla & Hl & Hs); [done | by simpl; rewrite length_replicate |].
  split; [done|]. split; [done|].
  apply list_eq. intros i. rewrite list_lookup_fmap.
  pose proof (Forall2_length _ _ _ Hall) as Hlen.
  destruct (decide (i < length tasks)) as [Hi|Hi].
  - rewrite (Hs i Hi). rewrite bool_decide_eq_true_2.
    + destruct (lookup_lt_is_Some_2 values i) as [a Ha]; [lia|]. by rewrite Ha.
    + rewrite completion_order_perm. apply elem_of_seq. lia.
  - rewrite !lookup_ge_None_2; [done | lia | lia].
Qed.

Lemma all_resolved (latency : nat → nat) tasks (values : list A) :
  Forall2 (λ task a, outcome task = Resolved a) tasks values →
  outcome (all latency tasks) = Resolved values.
Proof.
  intros Hall. unfold all.
  destruct (gather_resolved latency tasks values Hall) as (-> & _ & ->).
  simpl. f_equal.
  clear. induction values as [|a values IH]; [done|]. csimpl. by f_equal.
Qed.

Lemma stragglers_resolved (latency : nat → nat) tasks (values : list A) :
  Forall2 (λ task a, outcome task = Resolved a) tasks values →
  stragglers latency tasks = [].
Proof. intros Hall. by destruct (gather_resolved latency tasks values Hall) as (_ & ? & _). Qed.

(** A rejected task rejects the whole. *)
Lemma all_rejected (latency : nat → nat) tasks :
  Exists (λ task, ∃ e, outcome task = Rejected e) tasks →
  ∃ e, outcome (all latency tasks) = Rejected e.
Proof.
  intros (task & Hin & e & He)%Exists_exists.
  apply list_elem_of_lookup in Hin as [i Hi].
  destruct task as [t r]. simpl in He. subst r.
  unfold all, gather.
  pose proof (settle_rejected tasks (completion_order latency (length tasks))
                (Gathering [] (replicate (length tasks) None) None []) i t e Hi) as Hrej.
  destruct (rejection _) as [e'|]; [by exists e'|].
  exfalso. apply Hrej; [|done].
  rewrite completion_order_perm. apply elem_of_seq.
  apply lookup_lt_Some in Hi. lia.
Qed.

Lemma settled_or_rejected tasks :
  (∃ values : list A, Forall2 (λ task a, outcome task = Resolved a) tasks values)
  ∨ Exists (λ task, ∃ e, outcome task = Rejected e) tasks.
Proof.
  induction tasks as [|[t [a|e]] tasks IH].
  - left. by exists [].
  - destruct IH as [[values Hv]|Hex].
    + left. exists (a :: values). by constructor.
    + right. by apply Exists_cons_tl.
  - right. apply Exists_cons_hd. by exists e.
Qed.


End All.

(* ===================================================================== *)
(** ** The file classifiers                                                *)
(* ===================================================================== *)

Section GlobFacts.
Import Glob.

Lemma append_cons (c : ascii) (a b : string) : String c a +:+ b = String c (a +:+ b).
Proof. reflexivity. Qed.

Lemma strip_prefix_app (p s r : string) : strip_prefix p s = Some r → s = p +:+ r.
Proof.
  revert s. induction p as [|a p IH]; intros s; simpl.
  - by intros [= ->].
  - destruct s as [|b s]; [done|].
    destruct (Ascii.eqb_spec a b) as [->|]; [|done].
    intros H. by rewrite append_cons, (IH s H).
Qed.

Lemma strip_prefix_self (p r : string) : strip_prefix p (p +:+ r) = Some r.
Proof.
  induction p as [|a p IH]; [done|].
  rewrite append_cons. simpl. by rewrite Ascii.eqb_refl.
Qed.

Lemma append_assoc (a b c : string) : (a +:+ b) +:+ c = a +:+ (b +:+ c).
Proof. induction a as [|x a IH]; [done|]. by rewrite !append_cons, IH. Qed.

Lemma append_nil_r (a : string) : a +:+ "" = a.
Proof. induction a as [|x a IH]; [done|]. by rewrite append_cons, IH. Qed.

(** What [star] and [after_slash] accept is a suffix that the
    continuation accepts. *)
Lemma star_suffix (k : string → bool) (s : string) :
  star k s = true → ∃ a r, s = a +:+ r ∧ k r = true.
Proof.
  induction s as [|c s IH]; simpl.
  - rewrite orb_false_r. intros H. by exists "", "".
  - intros [H|[_ H]%andb_prop]%orb_prop.
    + by exists "", (String c s).
    + destruct (IH H) as (a & r & -> & Hr). by exists (String c a), r.
Qed.

Lemma after_slash_suffix (k : string → bool) (s : string) :
  after_slash k s = true → ∃ a r, s = a +:+ r ∧ k r = true.
Proof.
  induction s as [|c s IH]; simpl; [done|].
  intros [[_ H]%andb_prop|H]%orb_prop.
  - by exists (String c ""), s.
  - destruct (IH H) as (a & r & -> & Hr). by exists (String c a), r.
Qed.

Lemma star_here (k : string → bool) (s : string) : k s = true → star k s = true.
Proof. intros H. destruct s; simpl; by rewrite H. Qed.

Lemma star_step (k : string → bool) (c : ascii) (s : string) :
  c ≠ slash → star k s = true → star k (String c s) = true.
Proof.
  intros Hc H. simpl. rewrite H.
  destruct (Ascii.eqb_spec c slash); [done|]. by rewrite orb_true_r.
Qed.

Lemma after_slash_here (k : string → bool) (s : string) :
  k s = true → after_slash k (String slash s) = true.
Proof. intros H. simpl. by rewrite H. Qed.

Lemma after_slash_further (k : string → bool) (c : ascii) (s : string) :
  after_slash k s = true → after_slash k (String c s) = true.
Proof. intros H. simpl. rewrite H. by rewrite orb_true_r. Qed.

(** A pattern that ends with literal text only matches strings that end
    with that text. *)
Lemma matches_ends_with (p : pattern) (t s : string) :
  matches (p ++ [Lit t]) s = true → ∃ x, s = x +:+ t.
Proof.
  revert s. induction p as [|q p IH]; intros s; simpl.
  - destruct (strip_prefix t s) as [r|] eqn:Hs; [|done].
    destruct (String.eqb_spec r "") as [->|]; [|done].
    intros _. exists "". apply strip_prefix_app in Hs. by rewrite append_nil_r in Hs.
  - destruct q.
    + intros [H|H]%orb_prop; [by apply IH|].
      apply after_slash_suffix in H as (a & r & -> & Hr).
      destruct (IH r Hr) as [x ->]. exists (a +:+ x). by rewrite append_assoc.
    + intros H. apply star_suffix in H as (a & r & -> & Hr).
      destruct (IH r Hr) as [x ->]. exists (a +:+ x). by rewrite append_assoc.
    + destruct (strip_prefix text s) as [r|] eqn:Hs; [|done].
      intros Hr. destruct (IH r Hr) as [x ->].
      apply strip_prefix_app in Hs as ->. exists (text +:+ x). by rewrite append_assoc.
    + intros H. apply existsb_exists in H as (alt & _ & H).
      destruct (strip_prefix alt s) as [r|] eqn:Hs; [|done].
      destruct (IH r H) as [x ->].
      apply strip_prefix_app in Hs as ->. exists (alt +:+ x). by rewrite append_assoc.
Qed.

(** [**/*t] matches every string that ends with [t]. *)
Lemma matches_suffix (t x : string) :
  matches [Globstar; Star; Lit t] (x +:+ t) = true.
Proof.
  assert (matches [Lit t] t = true) as Hlit.
  { pose proof (strip_prefix_self t "") as H. rewrite append_nil_r in H.
    simpl. by rewrite H. }
  assert (∀ s, star (matches [Lit t]) s = matches [Star; Lit t] s) as Hstar by done.
  assert (∀ s, matches [Globstar; Star; Lit t] s
               = matches [Star; Lit t] s || after_slash (matches [Star; Lit t]) s)
    as Hglob by done.
  rewrite Hglob.
  induction x as [|c x IH].
  - apply orb_true_intro. left. rewrite <- Hstar.
    change ("" +:+ t) with t. by apply star_here.
  - apply orb_prop in IH. apply orb_true_intro. rewrite append_cons.
    destruct IH as [IH|IH].
    + destruct (Ascii.eqb_spec c slash) as [->|Hc].
      * right. by apply after_slash_here.
      * left. rewrite <- Hstar. apply star_step; [done|]. by rewrite Hstar.
    + right. by apply after_slash_further.
Qed.

End GlobFacts.

Lemma variant_view_is_view (this : ComponentSource) (s : string) :
  Glob.matches (variant_view_pattern this) s = true →
  Glob.matches (view_pattern this) s = true.
Proof.
  intros H.
  destruct (matches_ends_with
              [Glob.Globstar; Glob.Star; Glob.Lit (splitter this); Glob.Star]
              (ext this) s H) as [x ->].
  apply matches_suffix.
Qed.

(** C10. For every path, [isView] and [isVarView] are never both true,
    and [isAsset] is false whenever [isView], [isVarView], [isConfig] or
    [isReadme] is true. *)
Theorem classifiers_exclusive (this : ComponentSource) (file : File) :
  isView this file && isVarView this file = false
  ∧ (isView this file || isVarView this file || isConfig file || isReadme file = true →
     isAsset this file = false).
Proof.
  unfold isView, isVarView, isConfig, isReadme, isAsset.
  cbv [Glob.anymatch omap list_omap existsb Glob.negated Glob.positive].
  rewrite !orb_false_r.
  pose proof (variant_view_is_view this (toLowerCase (path file))) as Hvv.
  destruct (Glob.matches (variant_view_pattern this) _) eqn:Hv.
  - rewrite (Hvv eq_refl). by split.
  - destruct (Glob.matches (view_pattern this) _); [done|].
    destruct (Glob.matches config_pattern _); [done|].
    by destruct (Glob.matches readme_pattern _).
Qed.

Lemma classifiers_exclusive_witness :
  isView Demo.source {| path := "Button~Large.HBS" |}
    || isVarView Demo.source {| path := "Button~Large.HBS" |}
    || isConfig {| path := "Button~Large.HBS" |}
    || isReadme {| path := "Button~Large.HBS" |} = true
  ∧ isAsset Demo.source {| path := "Button~Large.HBS" |} = false.
Proof.
  split; [reflexivity|].
  apply (classifiers_exclusive Demo.source {| path := "Button~Large.HBS" |}).
  reflexivity.
Defined.

(** The scenario of the specification: extension [.hbs], splitter [~]. *)
Example classifier_scenario :
  isVarView Demo.source {| path := "button~large.hbs" |} = true
  ∧ isView Demo.source {| path := "button~large.hbs" |} = false
  ∧ isView Demo.source {| path := "button.hbs" |} = true
  ∧ isConfig {| path := "button.config.json" |} = true
  ∧ isAsset Demo.source {| path := "button.config.json" |} = false
  ∧ isAsset Demo.source {| path := "button.css" |} = true.
Proof. repeat split; reflexivity. Qed.

(* ===================================================================== *)
(** ** The status registry                                                 *)
(* ===================================================================== *)

Lemma status_of_resolves (this : ComponentSource) (h : string) :
  ∃ v, outcome (status_of this h) = Resolved v.
Proof.
  unfold status_of. destruct (String.eqb _ _); [by eexists|].
  destruct (negb _); by eexists.
Qed.

Lemma each_status_of (this : ComponentSource) (hs : list string) :
  outcome (each (status_of this) hs) = Resolved (List.map (resolution this) hs).
Proof.
  induction hs as [|h hs IH]; [reflexivity|].
  simpl. unfold resolution. simpl.
  destruct (status_of_resolves this h) as [v Hv].
  destruct (status_of this h) as [t r]. simpl in Hv. subst r.
  rewrite bind_resolved. simpl.
  destruct (each (status_of this) hs) as [t' r']. simpl in IH. subst r'.
  rewrite bind_resolved. reflexivity.
Qed.

(** C8. [statusInfo] of [undefined] and of the empty list is [null]. A
    list of handles is reduced to its distinct handles in the order in
    which they first occur; when one handle is left the result is
    [statusInfo] of that handle; otherwise it is the mixed record with a
    [statuses] field that holds the records these handles resolve to, in
    that order, the falsy ones left out. *)
Theorem statusInfo_handles (this : ComponentSource) (hs : list string) :
  statusInfo this NoHandle = resolved VNull
  ∧ statusInfo this (Handles []) = resolved VNull
  ∧ (∀ h, first_occurrences hs = [h] →
          statusInfo this (Handles hs) = statusInfo this (Handle h))
  ∧ (hs ≠ [] → length (first_occurrences hs) ≠ 1 →
     outcome (statusInfo this (Handles hs)) =
       Resolved (VObj (<["statuses" :=
                          VArr (List.filter (λ status, truthy status)
                                  (List.map (resolution this) (first_occurrences hs)))]>
                         (Taxonomy.mixed (_statuses this))))).
Proof.
  rewrite <- uniq_first_occurrences.
  split; [reflexivity|]. split; [reflexivity|]. split.
  - intros h Hu. destruct hs as [|x hs]; [done|].
    unfold statusInfo. by rewrite Hu.
  - intros Hne Hlen. destruct hs as [|x hs]; [done|].
    unfold statusInfo.
    assert (outcome (resolved_all ← each (status_of this) (uniq (x :: hs));
                     mret (VObj (<["statuses" := VArr (compact resolved_all)]>
                                   (Taxonomy.mixed (_statuses this)))))
            = Resolved (VObj (<["statuses" :=
                  VArr (List.filter (λ status, truthy status)
                          (List.map (resolution this) (uniq (x :: hs))))]>
                  (Taxonomy.mixed (_statuses this))))) as Hmany.
    { pose proof (each_status_of this (uniq (x :: hs))) as He.
      destruct (each _ _) as [t r]. simpl in He. subst r.
      rewrite bind_resolved. reflexivity. }
    destruct (uniq (x :: hs)) as [|a [|b l]]; [exact Hmany | done | exact Hmany].
Qed.

Lemma statusInfo_handles_witness :
  (first_occurrences ["ready"; "ready"] = ["ready"]
   ∧ statusInfo Demo.source (Handles ["ready"; "ready"])
     = statusInfo Demo.source (Handle "ready"))
  ∧ (first_occurrences ["wip"; "archived"; "ready"; "wip"] = ["wip"; "archived"; "ready"]
     ∧ outcome (statusInfo Demo.sparse (Handles ["wip"; "archived"; "ready"; "wip"])) =
         Resolved (VObj (<["statuses" :=
                            VArr [VObj {[ "handle" := VStr "wip"; "label" := VStr "WIP" ]};
                                  VObj {[ "handle" := VStr "ready"; "label" := VStr "Ready" ]}]]>
                           (Taxonomy.mixed Demo.sparse_statuses)))).
Proof.
  split.
  - split; [reflexivity|].
    apply (statusInfo_handles Demo.source ["ready"; "ready"]). reflexivity.
  - split; [reflexivity|].
    apply (proj2 (proj2 (proj2 (statusInfo_handles Demo.sparse
                                  ["wip"; "archived"; "ready"; "wip"])))).
    + discriminate.
    + vm_compute. discriminate.
Defined.

(** C9, as the code has it. The options are read as [options[handle]].
    A handle that is not the mixed handle, is not a key of the options
    and is not a name that every object inherits is answered with a
    logged warning and with what the options have under the default
    handle; no error is raised. That is also what [statusInfo] of the
    default handle resolves to, as long as the default handle is not
    itself the mixed handle. A handle that is not a key of the options
    but is an inherited name, such as [constructor], finds the inherited
    function: it is returned, and nothing is logged. *)
Theorem statusInfo_unknown (this : ComponentSource) (h : string) :
  Taxonomy.options (_statuses this) !! h = None →
  h ≠ Taxonomy.mixed_handle (_statuses this) →
  (inherited h = false →
   ∃ fallback,
     statusInfo this (Handle h) =
       ([ConsoleError (LogMessage ("Status " +:+ h +:+ " is not a known option."))],
        Resolved fallback)
     ∧ (∀ record,
          Taxonomy.options (_statuses this) !! Taxonomy.default (_statuses this)
            = Some record →
          fallback = record)
     ∧ (Taxonomy.options (_statuses this) !! Taxonomy.default (_statuses this) = None →
        inherited (Taxonomy.default (_statuses this)) = false →
        fallback = VUndefined)
     ∧ (Taxonomy.default (_statuses this) ≠ Taxonomy.mixed_handle (_statuses this) →
        outcome (statusInfo this (Handle (Taxonomy.default (_statuses this))))
          = Resolved fallback))
  ∧ (inherited h = true →
     ∃ found,
       statusInfo this (Handle h) = ([], Resolved found)
       ∧ truthy found = true
       ∧ (h ≠ "__proto__" → found = VFunction h)).
Proof.
  intros Habsent Hmixed. split.
  - intros Hplain.
    exists (member (Taxonomy.options (_statuses this)) (Taxonomy.default (_statuses this))).
    split; [|split; [|split]].
    + unfold statusInfo, status_of.
      destruct (String.eqb_spec h (Taxonomy.mixed_handle (_statuses this))); [done|].
      by rewrite (member_absent _ h).
    + intros record Hrecord. by apply member_own.
    + intros Hnone Hdefault. by apply member_absent.
    + intros Hdefault. unfold statusInfo, status_of.
      destruct (String.eqb_spec (Taxonomy.default (_statuses this))
                  (Taxonomy.mixed_handle (_statuses this))); [done|].
      by destruct (truthy _).
  - intros Hinherited.
    destruct (member_inherited _ _ Habsent Hinherited) as [Htruthy Hfunction].
    exists (member (Taxonomy.options (_statuses this)) h).
    split; [|by split].
    unfold statusInfo, status_of.
    destruct (String.eqb_spec h (Taxonomy.mixed_handle (_statuses this))); [done|].
    by rewrite Htruthy.
Qed.

Lemma statusInfo_unknown_witness :
  Taxonomy.options (_statuses Demo.source) !! "archived" = None
  ∧ "archived" ≠ Taxonomy.mixed_handle (_statuses Demo.source)
  ∧ inherited "archived" = false
  ∧ ∃ fallback,
      statusInfo Demo.source (Handle "archived") =
        ([ConsoleError (LogMessage "Status archived is not a known option.")],
         Resolved fallback)
      ∧ fallback = VObj {[ "handle" := VStr "ready"; "label" := VStr "Ready" ]}
      ∧ outcome (statusInfo Demo.source (Handle "ready")) = Resolved fallback.
Proof.
  split; [reflexivity|]. split; [discriminate|]. split; [reflexivity|].
  destruct (proj1 (statusInfo_unknown Demo.source "archived" eq_refl ltac:(discriminate))
                  eq_refl)
    as (fallback & Hunknown & Hrecord & _ & Hdefault).
  exists fallback. split; [exact Hunknown|]. split.
  - apply Hrecord. reflexivity.
  - apply Hdefault. discriminate.
Defined.

(** C9 as stated fails where the default handle is the mixed handle: an
    unknown handle gets the option stored under the default handle, and
    the default handle itself gets the mixed record. *)
Lemma statusInfo_default_differs :
  Taxonomy.options (_statuses Demo.odd) !! "archived" = None
  ∧ "archived" ≠ Taxonomy.mixed_handle (_statuses Demo.odd)
  ∧ outcome (statusInfo Demo.odd (Handle "archived"))
    ≠ outcome (statusInfo Demo.odd (Handle (Taxonomy.default (_statuses Demo.odd)))).
Proof.
  split; [reflexivity|]. split; [discriminate|].
  vm_compute. intros [= H].
Qed.

(** It fails as well for a handle that every object answers to: nothing
    is logged for [constructor], and what comes back is the inherited
    function, not the default option. *)
Example statusInfo_inherited_name :
  Taxonomy.options (_statuses Demo.source) !! "constructor" = None
  ∧ statusInfo Demo.source (Handle "constructor") = ([], Resolved (VFunction "constructor"))
  ∧ outcome (statusInfo Demo.source (Handle (Taxonomy.default (_statuses Demo.source))))
    = Resolved (VObj {[ "handle" := VStr "ready"; "label" := VStr "Ready" ]}).
Proof. repeat split; reflexivity. Qed.

(* ===================================================================== *)
(** ** The render pipeline                                                 *)
(* ===================================================================== *)

(** [render] on an entity is the generator body under one [catch]. *)
Lemma render_entity (this : ComponentSource) (latency : nat → nat) (e : entity)
  (context : value) (opts : option Options) :
  render this latency (Entity e) context opts =
    catch (pipeline this latency (render_variant this latency) e context (wants_layout opts))
          (λ err, _ ← console_error (LogError err); mret None).
Proof. reflexivity. Qed.

(** [render] is the function that the collation calls back. *)
Lemma render_unfold (this : ComponentSource) (latency : nat → nat) (entity : argument)
  (context : value) (opts : option Options) :
  render this latency entity context opts =
    render_with this latency
      (λ variant ctx, render this latency (Entity (IsVariant variant)) (VObj ctx) None)
      entity context opts.
Proof. reflexivity. Qed.

Lemma render_variant_latency (this : ComponentSource) (latency latency' : nat → nat)
  (variant : Variant.t) (ctx : obj) :
  render_variant this latency variant ctx = render_variant this latency' variant ctx.
Proof. reflexivity. Qed.

(** A missing entity is rejected before the pipeline is entered. *)
Lemma render_missing (this : ComponentSource) (latency : nat → nat) (context : value)
  (opts : option Options) :
  render this latency Missing context opts = ([], Rejected RejectedNull)
  ∧ render this latency (TemplatePath "") context opts = ([], Rejected RejectedNull).
Proof. by split. Qed.

(** *** Failures inside the pipeline *)



(** The two ways to [undefined]: a template that cannot be read, and an
    engine that renders nothing. *)
Example render_failed_or_empty :
  outcome (render Demo.source Demo.in_turn (Entity (IsVariant Demo.unreadable))
                  VUndefined None)
  = outcome (render Demo.mute Demo.in_turn (Entity (IsVariant Demo.large)) VUndefined None)
  ∧ events (render Demo.source Demo.in_turn (Entity (IsVariant Demo.unreadable))
                   VUndefined None)
    = [ConsoleError (LogError (Error "ENOENT: gone.hbs"))].
Proof. split; reflexivity. Qed.

(** The failures that the specification names, each followed to the
    diagnostics sink. *)
Lemma render_load_failure (this : ComponentSource) (latency : nat → nat) (e : entity)
  (context : value) (opts : option Options) (err : error) :
  load this = Rejected err →
  render this latency (Entity e) context opts
    = ([ConsoleError (LogError err)], Resolved None).
Proof.
  intros Hload. rewrite render_entity. unfold pipeline. by rewrite Hload.
Qed.

Lemma render_unsupported_type (this : ComponentSource) (latency : nat → nat)
  (handle : string) (collection_find : string → option entity)
  (context : value) (opts : option Options) :
  load this = Resolved tt →
  render this latency (Entity (IsCollection handle collection_find)) context opts
    = ([ConsoleError (LogError (Error "Cannot render entity of type collection"))],
       Resolved None).
Proof.
  intros Hload. rewrite render_entity. unfold pipeline. by rewrite Hload.
Qed.

Lemma render_content_failure (this : ComponentSource) (latency : nat → nat)
  (variant : Variant.t) (context : value) (opts : option Options) (err : error) :
  load this = Resolved tt →
  Variant.getContent variant = Rejected err →
  render this latency (Entity (IsVariant variant)) context opts
    = ([ConsoleError (LogError err)], Resolved None).
Proof.
  intros Hload Hcontent. rewrite render_entity. unfold pipeline, _renderVariant.
  by rewrite Hload, Hcontent.
Qed.

Lemma render_resolution_failure (this : ComponentSource) (latency : nat → nat)
  (variant : Variant.t) (context : value) (opts : option Options) (content : string)
  (err : error) :
  load this = Resolved tt →
  Variant.getContent variant = Resolved content →
  context_resolve this (js_or context (Variant.context variant)) (items this)
    = Rejected err →
  render this latency (Entity (IsVariant variant)) context opts
    = ([ConsoleError (LogError err)], Resolved None).
Proof.
  intros Hload Hcontent Hresolve. rewrite render_entity.
  unfold pipeline, _renderVariant, resolve.
  by rewrite Hload, Hcontent, Hresolve.
Qed.

Lemma render_engine_failure (this : ComponentSource) (latency : nat → nat)
  (variant : Variant.t) (context : value) (opts : option Options) (content : string)
  (ctx : obj) (err : error) :
  load this = Resolved tt →
  Variant.getContent variant = Resolved content →
  context_resolve this (js_or context (Variant.context variant)) (items this)
    = Resolved ctx →
  engine this (Some (Variant.viewPath variant)) content
         (VObj (<["_self" := Variant.toJSON variant]> ctx)) = Rejected err →
  render this latency (Entity (IsVariant variant)) context opts
    = ([EngineRender (Some (Variant.viewPath variant)) content
                     (VObj (<["_self" := Variant.toJSON variant]> ctx));
        ConsoleError (LogError err)], Resolved None).
Proof.
  intros Hload Hcontent Hresolve Hengine. rewrite render_entity.
  unfold pipeline, _renderVariant, resolve, engine_render.
  rewrite Hload, Hcontent, Hresolve, !bind_await. cbv zeta.
  by rewrite Hengine.
Qed.

(** *** Components and their default variant *)

Lemma default_variant_exists (c : Component.t) :
  Component.variants c ≠ [] → ∃ v, default_variant c = Some v.
Proof.
  unfold default_variant. destruct (Component.variants c) as [|v l]; [done|].
  intros _. destruct (Component.marked c); [|by eexists].
  destruct (List.find _ _); by eexists.
Qed.

(** C3. Rendering a component that is not collated and has a variant is
    rendering its default variant with the same context and options:
    the two runs have the same events and the same outcome. *)
Theorem render_default_variant (this : ComponentSource) (latency : nat → nat)
  (component : Component.t) (context : value) (opts : option Options) :
  Component.collated component = false →
  Component.variants component ≠ [] →
  ∃ variant,
    default_variant component = Some variant
    ∧ render this latency (Entity (IsComponent component)) context opts
      = render this latency (Entity (IsVariant variant)) context opts.
Proof.
  intros Hcollated Hvariants.
  destruct (default_variant_exists component Hvariants) as [variant Hdefault].
  exists variant. split; [done|].
  rewrite !render_entity. unfold pipeline.
  by rewrite Hcollated, Hdefault.
Qed.

Lemma render_default_variant_witness :
  Component.collated Demo.button = false
  ∧ Component.variants Demo.button ≠ []
  ∧ ∃ variant,
      default_variant Demo.button = Some variant
      ∧ render Demo.source Demo.in_turn (Entity (IsComponent Demo.button)) VUndefined
               (Some {| useLayout := true |})
        = render Demo.source Demo.in_turn (Entity (IsVariant variant)) VUndefined
                 (Some {| useLayout := true |}).
Proof.
  split; [reflexivity|]. split; [discriminate|].
  apply (render_default_variant Demo.source Demo.in_turn Demo.button VUndefined
           (Some {| useLayout := true |})); [reflexivity | discriminate].
Defined.

(** *** Raw template strings *)

(** C5, as the code has it. [renderString] hands the template source and
    the context, as they were given, to the engine with a null view path
    and returns what the engine returns; the context resolver has no
    part in it. *)
Theorem renderString_delegates (this : ComponentSource) (str : string) (context : value) :
  renderString this str context =
    ([EngineRender None str context], engine this None str context)
  ∧ ∀ other : ComponentSource,
      engine other = engine this →
      renderString other str context = renderString this str context.
Proof.
  split; [reflexivity|].
  intros other Hengine. unfold renderString, engine_render. by rewrite Hengine.
Qed.

Lemma renderString_delegates_witness :
  engine Demo.collating = engine Demo.source
  ∧ renderString Demo.collating "<h1>" (Demo.titled "@site")
    = renderString Demo.source "<h1>" (Demo.titled "@site").
Proof.
  split; [reflexivity|].
  apply (proj2 (renderString_delegates Demo.source "<h1>" (Demo.titled "@site"))
               Demo.collating).
  reflexivity.
Defined.

(** C5 as stated fails: a title that the resolver would expand reaches
    the engine as it was written. *)
Lemma renderString_not_resolving :
  renderString Demo.source "<h1>" (Demo.titled "@site")
    = ([EngineRender None "<h1>" (Demo.titled "@site")], Resolved (Some "<h1>[@site]-"))
  ∧ outcome (renderString_resolving Demo.source "<h1>" (Demo.titled "@site"))
    = Resolved (Some "<h1>[Fractal]-")
  ∧ renderString Demo.source "<h1>" (Demo.titled "@site")
    ≠ renderString_resolving Demo.source "<h1>" (Demo.titled "@site").
Proof.
  split; [reflexivity|]. split; [reflexivity|].
  intros H. apply (f_equal outcome) in H. vm_compute in H. discriminate H.
Qed.

(** *** Layout wrapping *)

(** C7. When [find] does not know the layout handle, wrapping logs that
    the layout was not found and resolves with the content it was given;
    wrapping the result again gives the same content. *)
Theorem wrapInLayout_missing (this : ComponentSource) (content : option string)
  (previewHandle : string) (context : option obj) :
  find this previewHandle = None →
  _wrapInLayout this content previewHandle context =
    ([ConsoleError (LogMessage ("Preview layout " +:+ previewHandle +:+ " not found."))],
     Resolved content)
  ∧ outcome (again ← _wrapInLayout this content previewHandle context;
             _wrapInLayout this again previewHandle context) = Resolved content.
Proof.
  intros Hfind.
  assert (∀ c, _wrapInLayout this c previewHandle context =
    ([ConsoleError (LogMessage ("Preview layout " +:+ previewHandle +:+ " not found."))],
     Resolved c)) as Hw.
  { intros c. unfold _wrapInLayout. rewrite Hfind. reflexivity. }
  split; [apply Hw|]. rewrite Hw, bind_resolved, Hw. reflexivity.
Qed.

Lemma wrapInLayout_missing_witness :
  find Demo.source "@nowhere" = None
  ∧ _wrapInLayout Demo.source (Some "<b>") "@nowhere" None =
      ([ConsoleError (LogMessage "Preview layout @nowhere not found.")],
       Resolved (Some "<b>")).
Proof.
  split; [reflexivity|].
  apply (wrapInLayout_missing Demo.source (Some "<b>") "@nowhere" None). reflexivity.
Defined.

(** A render that asks for a layout which is not there still resolves
    with the markup of the variant. *)
Example render_with_missing_layout :
  let orphan := Variant.Make "orphan" "orphan.hbs" (Demo.titled "Orphan") (Some "@nowhere")
                             (Resolved "<p>") VNull in
  render Demo.source Demo.in_turn (Entity (IsVariant orphan)) VUndefined
         (Some {| useLayout := true |})
  = ([EngineRender (Some "orphan.hbs") "<p>"
                   (VObj {[ "title" := VStr "Orphan"; "_self" := VNull ]});
      ConsoleError (LogMessage "Preview layout @nowhere not found.")],
     Resolved (Some "<p>[Orphan]-")).
Proof. reflexivity. Qed.

(** C6. The context that layout wrapping gives the engine: under the
    yield key, the content; under any other key, what the layout's own
    resolved context has there, and what the caller's context has there
    only if the layout's context has nothing ([undefined]) there. *)
Theorem wrapInLayout_merge (this : ComponentSource) (content : option string)
  (previewHandle : string) (context : option obj) (found : entity) (layout : Variant.t) (layoutContext : obj)
  (layoutContent : string) :
  find this previewHandle = Some found →
  layout_variant found = Some (IsVariant layout) →
  context_resolve this (Variant.context layout) (items this) = Resolved layoutContext →
  Variant.getContent layout = Resolved layoutContent →
  ∃ merged : obj,
    _wrapInLayout this content previewHandle context =
      ([EngineRender (Some (Variant.viewPath layout)) layoutContent (VObj merged)],
       engine this (Some (Variant.viewPath layout)) layoutContent (VObj merged))
    ∧ prop merged (yield this) = markup_value content
    ∧ ∀ k, k ≠ yield this →
        prop merged k =
          match prop layoutContext k with
          | VUndefined => prop (default ∅ context) k
          | kept => kept
          end.
Proof.
  intros Hfind Hlayout Hctx Hcontent.
  exists (<[yield this := markup_value content]>
            (defaults layoutContext (default ∅ context))).
  split; [|split].
  - unfold _wrapInLayout. rewrite Hfind, Hlayout.
    unfold resolve. rewrite Hctx, bind_await, Hcontent, bind_await. reflexivity.
  - unfold prop. by rewrite lookup_insert_eq.
  - intros k Hk. rewrite <- defaults_lookup. unfold prop.
    by rewrite lookup_insert_ne.
Qed.

Lemma wrapInLayout_merge_witness :
  let caller : obj := {[ "_target" := VStr "button"; "title" := VStr "Button" ]} in
  let own : obj := {[ "title" := VStr "Preview"; "lang" := VStr "en" ]} in
  find Demo.source "@preview" = Some (IsComponent Demo.preview)
  ∧ layout_variant (IsComponent Demo.preview) = Some (IsVariant Demo.frame)
  ∧ context_resolve Demo.source (Variant.context Demo.frame) (items Demo.source)
    = Resolved own
  ∧ Variant.getContent Demo.frame = Resolved "<html>"
  ∧ ∃ merged : obj,
      _wrapInLayout Demo.source (Some "<b>") "@preview" (Some caller) =
        ([EngineRender (Some (Variant.viewPath Demo.frame)) "<html>" (VObj merged)],
         engine Demo.source (Some (Variant.viewPath Demo.frame)) "<html>" (VObj merged))
      ∧ prop merged (yield Demo.source) = markup_value (Some "<b>")
      ∧ ∀ k, k ≠ yield Demo.source →
          prop merged k =
            match prop own k with
            | VUndefined => prop (default ∅ (Some caller)) k
            | kept => kept
            end.
Proof.
  intros caller own.
  split; [reflexivity|]. split; [reflexivity|].
  split; [reflexivity|]. split; [reflexivity|].
  apply (wrapInLayout_merge Demo.source (Some "<b>") "@preview" (Some caller)
           (IsComponent Demo.preview) Demo.frame own "<html>");
    reflexivity.
Defined.

(** In that run the layout keeps its title and takes the target. *)
Example wrapInLayout_merged_context :
  events (_wrapInLayout Demo.source (Some "<b>") "@preview"
            (Some {[ "_target" := VStr "button"; "title" := VStr "Button" ]}))
  = [EngineRender (Some "preview.hbs") "<html>"
       (VObj {[ "title" := VStr "Preview"; "lang" := VStr "en";
                "_target" := VStr "button"; "yield" := VStr "<b>" ]})].
Proof. reflexivity. Qed.

(** A render that asks for the layout: the layout's context is filled
    with the serialized target and receives the markup of the variant
    under the yield key. *)
Example render_in_layout :
  render Demo.source Demo.in_turn (Entity (IsVariant Demo.large)) VUndefined
         (Some {| useLayout := true |})
  = ([EngineRender (Some "button~large.hbs") "<large>"
        (VObj {[ "title" := VStr "Large"; "_self" := VObj {[ "handle" := VStr "large" ]} ]});
      EngineRender (Some "preview.hbs") "<html>"
        (VObj {[ "title" := VStr "Preview"; "lang" := VStr "en";
                 "_target" := VObj {[ "handle" := VStr "large" ]};
                 "yield" := VStr "<large>[Large]-" ]})],
     Resolved (Some "<html>[Preview]<large>[Large]-")).
Proof. reflexivity. Qed.

(** *** The serialized entity in the context *)




(** *** Collated components *)

Lemma collated_outcome (this : ComponentSource) (latency : nat → nat)
  (component : Component.t) (context : value) :
  let tasks := List.map (collate_variant this (render_variant this latency)
                           (js_or context (VObj ∅))) (Component.variants component) in
  outcome (_renderCollatedComponent this latency (render_variant this latency)
             component context) =
    match outcome (all latency tasks) with
    | Resolved markups => Resolved (join newline markups)
    | Rejected e => Rejected e
    end.
Proof.
  intros tasks. subst tasks. unfold _renderCollatedComponent. rewrite outcome_bind.
  by destruct (outcome (all _ _)).
Qed.

Lemma render_collated_outcome (this : ComponentSource) (latency : nat → nat)
  (component : Component.t) (context : value) (opts : option Options) :
  Component.collated component = true →
  outcome (render this latency (Entity (IsComponent component)) context opts) =
    match outcome (await (load this)) with
    | Rejected _ => Resolved None
    | Resolved _ =>
        match outcome (_renderCollatedComponent this latency (render_variant this latency)
                         component context) with
        | Rejected _ => Resolved None
        | Resolved rendered =>
            if wants_layout opts && handle_set (Component.preview component) then
              match outcome (_wrapInLayout this (Some rendered)
                               (default "" (Component.preview component))
                               (Some {[ "_target" := Component.toJSON component ]})) with
              | Resolved wrapped => Resolved wrapped
              | Rejected _ => Resolved None
              end
            else Resolved (Some rendered)
        end
    end.
Proof.
  intros Hc. rewrite render_entity, outcome_catch. unfold pipeline.
  rewrite Hc. cbv beta iota zeta.
  rewrite outcome_bind. destruct (outcome (await (load this))); [|done].
  rewrite !outcome_bind.
  destruct (outcome (_renderCollatedComponent _ _ _ _ _)) as [rendered|]; [|done].
  simpl outcome at 1. cbv beta iota. simpl entity_preview. simpl entity_toJSON.
  destruct (wants_layout opts && _); [|done].
  by destruct (outcome (_wrapInLayout _ _ _ _)).
Qed.

(** ** More on the file classifiers                                        *)

Section MoreGlobFacts.
Import Glob.

(** A pattern with literal text in it only matches strings with that text in them. *)
Lemma matches_contains (p q : pattern) (t s : string) :
  matches (p ++ Lit t :: q) s = true → ∃ x y, s = x +:+ t +:+ y.
Proof.
  revert s. induction p as [|piece p IH]; intros s; simpl.
  - destruct (strip_prefix t s) as [r|] eqn:Hs; [|done].
    intros _. exists "", r. by apply strip_prefix_app in Hs.
  - destruct piece.
    + intros [H|H]%orb_prop; [by apply IH|].
      apply after_slash_suffix in H as (a & r & -> & Hr).
      destruct (IH r Hr) as (x & y & ->). exists (a +:+ x), y. by rewrite append_assoc.
    + intros H. apply star_suffix in H as (a & r & -> & Hr).
      destruct (IH r Hr) as (x & y & ->). exists (a +:+ x), y. by rewrite append_assoc.
    + destruct (strip_prefix text s) as [r|] eqn:Hs; [|done].
      intros Hr. destruct (IH r Hr) as (x & y & ->).
      apply strip_prefix_app in Hs as ->. exists (text +:+ x), y. by rewrite append_assoc.
    + intros H. apply existsb_exists in H as (alt & _ & H).
      destruct (strip_prefix alt s) as [r|] eqn:Hs; [|done].
      destruct (IH r H) as (x & y & ->).
      apply strip_prefix_app in Hs as ->. exists (alt +:+ x), y. by rewrite append_assoc.
Qed.

(** A pattern that ends with a brace list only matches strings that end with one of the alternatives. *)
Lemma matches_ends_with_alternative (p : pattern) (alts : list string) (s : string) :
  matches (p ++ [Braces alts]) s = true → ∃ x alt, In alt alts ∧ s = x +:+ alt.
Proof.
  revert s. induction p as [|piece p IH]; intros s; simpl.
  - intros H. apply existsb_exists in H as (alt & Hin & H).
    destruct (strip_prefix alt s) as [r|] eqn:Hs; [|done].
    destruct (String.eqb_spec r "") as [->|]; [|done].
    exists "", alt. split; [done|]. apply strip_prefix_app in Hs.
    by rewrite append_nil_r in Hs.
  - destruct piece.
    + intros [H|H]%orb_prop; [by apply IH|].
      apply after_slash_suffix in H as (a & r & -> & Hr).
      destruct (IH r Hr) as (x & alt & Hin & ->). exists (a +:+ x), alt.
      by rewrite append_assoc.
    + intros H. apply star_suffix in H as (a & r & -> & Hr).
      destruct (IH r Hr) as (x & alt & Hin & ->). exists (a +:+ x), alt.
      by rewrite append_assoc.
    + destruct (strip_prefix text s) as [r|] eqn:Hs; [|done].
      intros Hr. destruct (IH r Hr) as (x & alt & Hin & ->).
      apply strip_prefix_app in Hs as ->. exists (text +:+ x), alt. by rewrite append_assoc.
    + intros H. apply existsb_exists in H as (alt' & _ & H).
      destruct (strip_prefix alt' s) as [r|] eqn:Hs; [|done].
      destruct (IH r H) as (x & alt & Hin & ->).
      apply strip_prefix_app in Hs as ->. exists (alt' +:+ x), alt. by rewrite append_assoc.
Qed.

End MoreGlobFacts.

Section Classifiers.

Variable this : ComponentSource.

Lemma isView_eq (file : File) :
  isView this file =
    negb (Glob.matches (variant_view_pattern this) (toLowerCase (path file)))
    && Glob.matches (view_pattern this) (toLowerCase (path file)).
Proof.
  unfold isView. cbv [Glob.anymatch omap list_omap existsb Glob.negated Glob.positive].
  by rewrite !orb_false_r.
Qed.

Lemma isVarView_eq (file : File) :
  isVarView this file = Glob.matches (variant_view_pattern this) (toLowerCase (path file)).
Proof.
  unfold isVarView. cbv [Glob.anymatch omap list_omap existsb Glob.negated Glob.positive].
  by rewrite !orb_false_r.
Qed.

Lemma isConfig_eq (file : File) :
  isConfig file = Glob.matches config_pattern (toLowerCase (path file)).
Proof.
  unfold isConfig. cbv [Glob.anymatch omap list_omap existsb Glob.negated Glob.positive].
  by rewrite !orb_false_r.
Qed.

Lemma isReadme_eq (file : File) :
  isReadme file = Glob.matches readme_pattern (toLowerCase (path file)).
Proof.
  unfold isReadme. cbv [Glob.anymatch omap list_omap existsb Glob.negated Glob.positive].
  by rewrite !orb_false_r.
Qed.

End Classifiers.

(** Lower-casing leaves no upper-case letter. *)
Lemma lower_char_not_upper (c : ascii) : is_upper (lower_char c) = false.
Proof.
  unfold lower_char, is_upper.
  destruct ((65 <=? nat_of_ascii c)%nat && (nat_of_ascii c <=? 90)%nat) eqn:Hu; [|done].
  apply andb_prop in Hu as [H1%Nat.leb_le H2%Nat.leb_le].
  rewrite nat_ascii_embedding by lia.
  apply andb_false_iff. right. apply Nat.leb_gt. lia.
Qed.

Lemma lower_char_idem (c : ascii) : lower_char (lower_char c) = lower_char c.
Proof.
  pose proof (lower_char_not_upper c) as H. unfold is_upper in H.
  unfold lower_char at 1. by rewrite H.
Qed.

Lemma toLowerCase_idem (s : string) : toLowerCase (toLowerCase s) = toLowerCase s.
Proof. induction s as [|c s IH]; [done|]. simpl. by rewrite lower_char_idem, IH. Qed.

Lemma toLowerCase_no_upper (s : string) : has_upper (toLowerCase s) = false.
Proof. induction s as [|c s IH]; [done|]. simpl. by rewrite lower_char_not_upper, IH. Qed.

Lemma has_upper_app (x y : string) : has_upper (x +:+ y) = has_upper x || has_upper y.
Proof.
  induction x as [|c x IH]; [done|]. rewrite append_cons. simpl.
  by rewrite IH, orb_assoc.
Qed.

(** X3. The path is lower-cased before it is matched, the extension and
    the splitter are not. Where they are plain text, an upper-case
    letter in the extension leaves no file that is a view or a variant
    view, and an upper-case letter in the splitter leaves no file that
    is a variant view. *)
Theorem upper_case_never_matches (this : ComponentSource) (file : File) :
  plain (ext this) = true →
  plain (splitter this) = true →
  (has_upper (ext this) = true →
   isView this file = false ∧ isVarView this file = false)
  ∧ (has_upper (splitter this) = true → isVarView this file = false).
Proof.
  intros _ _.
  pose proof (toLowerCase_no_upper (path file)) as Hlow.
  split.
  - intros Hext.
    assert (Glob.matches (view_pattern this) (toLowerCase (path file)) = false) as Hview.
    { apply not_true_is_false. intros H.
      destruct (matches_ends_with [Glob.Globstar; Glob.Star] (ext this) _ H) as [x Hx].
      rewrite Hx, has_upper_app, Hext, orb_true_r in Hlow. done. }
    rewrite isView_eq, isVarView_eq, Hview, andb_false_r. split; [done|].
    apply not_true_is_false. intros H%variant_view_is_view. congruence.
  - intros Hsplit. rewrite isVarView_eq.
    apply not_true_is_false. intros H.
    destruct (matches_contains [Glob.Globstar; Glob.Star]
                [Glob.Star; Glob.Lit (ext this)] (splitter this) _ H) as (x & y & Hx).
    rewrite Hx, !has_upper_app, Hsplit, orb_true_r in Hlow. done.
Qed.

Lemma upper_case_never_matches_witness :
  plain (ext Demo.shouting) = true
  ∧ plain (splitter Demo.shouting) = true
  ∧ has_upper (ext Demo.shouting) = true
  ∧ isView Demo.shouting {| path := "button.HBS" |} = false
  ∧ isVarView Demo.shouting {| path := "button.HBS" |} = false.
Proof.
  split; [reflexivity|]. split; [reflexivity|]. split; [reflexivity|].
  apply (proj1 (upper_case_never_matches Demo.shouting {| path := "button.HBS" |}
                  eq_refl eq_refl)).
  reflexivity.
Defined.

Lemma last_char_app (x y : string) :
  y ≠ "" → last_char (x +:+ y) = last_char y.
Proof.
  intros Hy. induction x as [|c x IH]; [done|].
  rewrite append_cons. simpl. rewrite IH.
  destruct y as [|d y]; [done|]. simpl. by destruct (last_char y).
Qed.

(** X4. No file is both a configuration file and a readme. *)
Theorem config_is_not_readme (file : File) : isConfig file && isReadme file = false.
Proof.
  apply not_true_is_false. intros [Hc Hr]%andb_prop.
  rewrite isConfig_eq in Hc. rewrite isReadme_eq in Hr.
  destruct (matches_ends_with_alternative
              [Glob.Globstar; Glob.Star; Glob.Lit ".config."]
              ["js"; "json"; "yaml"; "yml"] _ Hc) as (x & alt & Hin & Hx).
  assert (last_char (toLowerCase (path file)) = Some "d"%char) as Hd.
  { destruct (matches_ends_with [Glob.Globstar] "readme.md" _ Hr) as [y ->].
    by rewrite last_char_app. }
  rewrite Hx in Hd. simpl in Hin.
  destruct Hin as [<-|[<-|[<-|[<-|[]]]]]; by rewrite last_char_app in Hd.
Qed.

(** X5. The five classifiers answer the same on a file and on that file with
    its path lower-cased. *)
Theorem classifiers_ignore_case (this : ComponentSource) (file : File) :
  let lowered := {| path := toLowerCase (path file) |} in
  isView this lowered = isView this file
  ∧ isVarView this lowered = isVarView this file
  ∧ isConfig lowered = isConfig file
  ∧ isReadme lowered = isReadme file
  ∧ isAsset this lowered = isAsset this file.
Proof.
  unfold isView, isVarView, isConfig, isReadme, isAsset. simpl path.
  by rewrite toLowerCase_idem.
Qed.

(** ** More on the status registry                                         *)

Section StatusFacts.

Variable this : ComponentSource.

Lemma status_of_events (h : string) :
  events (status_of this h) = if unknown_status this h then [status_warning h] else [].
Proof.
  rewrite unknown_status_member. unfold status_of.
  destruct (String.eqb _ _); [done|]. by destruct (truthy _).
Qed.

Lemma each_status_of_events (hs : list string) :
  events (each (status_of this) hs)
  = List.map status_warning (List.filter (unknown_status this) hs).
Proof.
  induction hs as [|h hs IH]; [done|].
  simpl each. rewrite events_bind.
  destruct (status_of_resolves this h) as [v ->].
  rewrite events_bind.
  pose proof (each_status_of this hs) as Hall. rewrite Hall. simpl events at 3.
  rewrite app_nil_r, status_of_events, IH. simpl.
  by destruct (unknown_status this h).
Qed.

(** [statusInfo] on a list that is not empty only looks at its distinct handles. *)
Lemma statusInfo_uniq (hs hs' : list string) :
  hs ≠ [] → hs' ≠ [] → uniq hs = uniq hs' →
  statusInfo this (Handles hs) = statusInfo this (Handles hs').
Proof.
  intros Hne Hne' Hu. destruct hs as [|x hs]; [done|]. destruct hs' as [|x' hs']; [done|].
  unfold statusInfo. by rewrite Hu.
Qed.

(** X7. The warnings of [statusInfo] on a list of handles: one [Status
    <handle> is not a known option.] for each distinct handle that is
    not the mixed handle and for which the options hold a falsy value
    or, no inherited name being asked for, nothing; they come in the
    order in which these handles first occur, and nothing else is
    logged. *)
Theorem statusInfo_warnings (hs : list string) :
  events (statusInfo this (Handles hs))
  = List.map status_warning (List.filter (unknown_status this) (first_occurrences hs)).
Proof.
  rewrite <- uniq_first_occurrences.
  destruct hs as [|x hs]; [done|].
  unfold statusInfo.
  assert (events (resolved_all ← each (status_of this) (uniq (x :: hs));
                  mret (VObj (<["statuses" := VArr (compact resolved_all)]>
                                (Taxonomy.mixed (_statuses this)))))
          = List.map status_warning (List.filter (unknown_status this) (uniq (x :: hs))))
    as Hmany.
  { rewrite events_bind, each_status_of. simpl events at 2.
    by rewrite app_nil_r, each_status_of_events. }
  destruct (uniq (x :: hs)) as [|a [|b l]]; [exact Hmany | | exact Hmany].
  rewrite status_of_events. simpl. by destruct (unknown_status this a).
Qed.

Lemma uniq_from_app (seen l l' : list string) :
  uniq_from seen (l ++ l') = uniq_from seen l ++ uniq_from (reverse l ++ seen) l'.
Proof.
  revert seen. induction l as [|x l IH]; intros seen; [done|].
  simpl. case_bool_decide as Hx.
  - rewrite IH. f_equal. apply uniq_from_seen. intros z.
    rewrite reverse_cons, !elem_of_app, list_elem_of_singleton.
    split; [tauto|]. intros [[?| ->]|?]; auto.
  - rewrite IH. simpl. do 2 f_equal. apply uniq_from_seen. intros z.
    rewrite reverse_cons, !elem_of_app, list_elem_of_singleton, elem_of_cons.
    tauto.
Qed.

Lemma uniq_skip_repeated (l1 l2 : list string) (h : string) :
  h ∈ l1 → uniq (l1 ++ h :: l2) = uniq (l1 ++ l2).
Proof.
  intros Hin. unfold uniq. rewrite !uniq_from_app. f_equal. simpl.
  rewrite bool_decide_eq_true_2; [done|].
  rewrite app_nil_r. by apply elem_of_reverse.
Qed.

(** X8. A handle that already occurs earlier in the list can be dropped from
    it: result and warnings of [statusInfo] stay the same. *)
Theorem statusInfo_repeated_handle (l1 l2 : list string) (h : string) :
  h ∈ l1 →
  statusInfo this (Handles (l1 ++ h :: l2)) = statusInfo this (Handles (l1 ++ l2)).
Proof.
  intros Hin. apply statusInfo_uniq.
  - by destruct l1.
  - destruct l1; [by apply elem_of_nil in Hin | done].
  - by apply uniq_skip_repeated.
Qed.

(** X9. Two distinct unknown handles are warned about in order, and
    each contributes the default option to [statuses]: the handles are
    made distinct, the records they resolve to are not, so the default
    option is listed twice (or not at all when it is falsy). *)
Theorem statusInfo_two_unknown (h1 h2 : string) (record : value) :
  h1 ≠ h2 →
  unknown_status this h1 = true →
  unknown_status this h2 = true →
  Taxonomy.options (_statuses this) !! Taxonomy.default (_statuses this) = Some record →
  statusInfo this (Handles [h1; h2])
  = ([status_warning h1; status_warning h2],
     Resolved (VObj (<["statuses" := VArr (if truthy record then [record; record] else [])]>
                       (Taxonomy.mixed (_statuses this))))).
Proof.
  intros Hne H1 H2 Hrecord.
  assert (∀ h, unknown_status this h = true →
               status_of this h = ([status_warning h], Resolved record)) as Hs.
  { intros h Hh. rewrite unknown_status_member in Hh. apply andb_prop in Hh as [Hm Ho].
    unfold status_of. destruct (String.eqb _ _); [done|]. rewrite Ho.
    by rewrite (member_own _ _ record). }
  unfold statusInfo, uniq. simpl uniq_from.
  rewrite (bool_decide_eq_false_2 (h2 ∈ [h1]))
    by (intros Hin%list_elem_of_singleton; by apply Hne).
  simpl each. rewrite (Hs h1 H1), (Hs h2 H2).
  unfold mbind, Async_bind, andThen, mret, Async_ret, resolved, compact. simpl.
  by destruct (truthy record).
Qed.

(** X10. With two distinct handles or more, [statusInfo] answers with an
    object whose [handle] is the mixed handle and whose [statuses] is an
    array of truthy values, at most one for each distinct handle. *)
Theorem statusInfo_mixed_shape (hs : list string) :
  2 ≤ length (uniq hs) →
  ∃ (details : obj) (statuses : list value),
    outcome (statusInfo this (Handles hs)) = Resolved (VObj details)
    ∧ prop details "handle" = VStr (Taxonomy.mixed_handle (_statuses this))
    ∧ prop details "statuses" = VArr statuses
    ∧ length statuses ≤ length (uniq hs)
    ∧ Forall (λ v, truthy v = true) statuses.
Proof.
  intros Hlen.
  exists (<["statuses" := VArr (compact (List.map (resolution this) (uniq hs)))]>
            (Taxonomy.mixed (_statuses this))),
         (compact (List.map (resolution this) (uniq hs))).
  split; [|split; [|split; [|split]]].
  - destruct hs as [|x hs]; [simpl in Hlen; lia|].
    unfold statusInfo.
    destruct (uniq (x :: hs)) as [|a [|b l]] eqn:Hu; [simpl in Hlen; lia..|].
    rewrite outcome_bind, each_status_of. reflexivity.
  - unfold prop, Taxonomy.mixed. rewrite lookup_insert_ne by done.
    by rewrite lookup_insert_eq.
  - unfold prop. by rewrite lookup_insert_eq.
  - unfold compact. etransitivity; [apply filter_length_le|]. by rewrite length_map.
  - unfold compact. apply Forall_forall. intros v Hv.
    apply list_elem_of_In in Hv. by apply filter_In in Hv as [_ ?].
Qed.

End StatusFacts.

Lemma statusInfo_repeated_handle_witness :
  "wip" ∈ ["ready"; "wip"]
  ∧ statusInfo Demo.source (Handles (["ready"; "wip"] ++ "wip" :: ["ready"]))
    = statusInfo Demo.source (Handles (["ready"; "wip"] ++ ["ready"])).
Proof.
  split; [by apply list_elem_of_further, list_elem_of_here|].
  apply (statusInfo_repeated_handle Demo.source ["ready"; "wip"] ["ready"] "wip").
  by apply list_elem_of_further, list_elem_of_here.
Defined.

Lemma statusInfo_two_unknown_witness :
  "archived" ≠ "retired"
  ∧ unknown_status Demo.source "archived" = true
  ∧ unknown_status Demo.source "retired" = true
  ∧ statusInfo Demo.source (Handles ["archived"; "retired"])
    = ([status_warning "archived"; status_warning "retired"],
       Resolved (VObj (<["statuses" :=
                          VArr [VObj {[ "handle" := VStr "ready"; "label" := VStr "Ready" ]};
                                VObj {[ "handle" := VStr "ready"; "label" := VStr "Ready" ]}]]>
                         (Taxonomy.mixed Demo.statuses)))).
Proof.
  split; [discriminate|]. split; [reflexivity|]. split; [reflexivity|].
  apply (statusInfo_two_unknown Demo.source "archived" "retired"
           (VObj {[ "handle" := VStr "ready"; "label" := VStr "Ready" ]}));
    [discriminate | reflexivity | reflexivity | reflexivity].
Defined.

Lemma statusInfo_mixed_shape_witness :
  2 ≤ length (uniq ["ready"; "wip"; "ready"])
  ∧ ∃ (details : obj) (statuses : list value),
      outcome (statusInfo Demo.source (Handles ["ready"; "wip"; "ready"]))
        = Resolved (VObj details)
      ∧ prop details "handle" = VStr (Taxonomy.mixed_handle (_statuses Demo.source))
      ∧ prop details "statuses" = VArr statuses
      ∧ length statuses ≤ length (uniq ["ready"; "wip"; "ready"])
      ∧ Forall (λ v, truthy v = true) statuses.
Proof.
  split; [vm_compute; lia|].
  apply (statusInfo_mixed_shape Demo.source ["ready"; "wip"; "ready"]).
  vm_compute. lia.
Defined.

(** ** Assets, variants and find                                           *)

(** The loop [acc = acc.concat(f(x))] gathers the concatenation. *)
Lemma foldl_concat {A B} (f : A → list B) (init : list B) (l : list A) :
  foldl (λ acc x, acc ++ f x) init l = init ++ concat (List.map f l).
Proof.
  revert init. induction l as [|x l IH]; intros init; simpl.
  - by rewrite app_nil_r.
  - by rewrite IH, app_assoc.
Qed.

Lemma elem_of_concat_map {A B} (f : A → list B) (l : list A) (x : B) :
  x ∈ concat (List.map f l) ↔ ∃ a, a ∈ l ∧ x ∈ f a.
Proof.
  induction l as [|a l IH]; simpl.
  - split; [by intros ?%elem_of_nil | by intros (a & ?%elem_of_nil & _)].
  - rewrite elem_of_app, IH. split.
    + intros [Hx|(b & Hb & Hx)]; [exists a | exists b]; split; try done;
        [apply list_elem_of_here | by apply list_elem_of_further].
    + intros (b & [->|Hb]%elem_of_cons & Hx); [by left | right; by exists b].
Qed.

Lemma length_concat_map {A B} (f : A → list B) (l : list A) :
  length (concat (List.map f l)) = sum_list (List.map (λ a, length (f a)) l).
Proof. induction l as [|a l IH]; [done|]. simpl. by rewrite length_app, IH. Qed.

Section Gathering.
Context {Asset : Type} `{EqDecision Asset}.






End Gathering.


(** An asset that two components share is held once. *)
Example assets_shared :
  Collection.toArray (assets [Demo.button; Demo.card]
                             (λ comp, [Component.handle comp +:+ ".css"; "shared.css"]))
  = ["button.css"; "shared.css"; "card.css"].
Proof. reflexivity. Qed.

Section Tree.

Variable this : ComponentSource.

Lemma variants_concat :
  variants this = concat (List.map Component.variants (components this)).
Proof. unfold variants. by rewrite foldl_concat. Qed.

Lemma elem_of_components (c : Component.t) :
  c ∈ components this ↔ IsComponent c ∈ items this.
Proof.
  unfold components. rewrite list_elem_of_omap. split.
  - intros (item & Hin & Hc). destruct item; by simplify_eq.
  - intros Hin. by exists (IsComponent c).
Qed.

(** X12. [variants] is the concatenation, in the order of the items, of the
    variants of the items that are components: a variant is in it exactly
    when it is a variant of a component among the items, and its length is
    the sum of theirs. *)
Theorem variants_gathers :
  variants this = concat (List.map Component.variants (components this))
  ∧ (∀ v, v ∈ variants this
          ↔ ∃ c, IsComponent c ∈ items this ∧ v ∈ Component.variants c)
  ∧ length (variants this)
    = sum_list (List.map (λ c, length (Component.variants c)) (components this)).
Proof.
  split; [apply variants_concat|]. split.
  - intros v. rewrite variants_concat, elem_of_concat_map. split.
    + intros (c & Hc & Hv). exists c. by rewrite <- elem_of_components.
    + intros (c & Hc & Hv). exists c. by rewrite elem_of_components.
  - rewrite variants_concat. apply length_concat_map.
Qed.

(** *** find *)

Lemma find_unfold (arg : string) :
  find this arg =
    if (length (items this) =? 0)%nat then None
    else match find_item (find_matcher this arg) arg (items this) with
         | Some found => Some found
         | None => if startsWith_at arg then find_variant arg (items this) else None
         end.
Proof. reflexivity. Qed.

Lemma find_item_cons (matcher : Component.t → bool) (arg : string) (item : entity)
  (l : list entity) :
  find_item matcher arg (item :: l) =
    match hit matcher arg item with
    | Some e => Some e
    | None => find_item matcher arg l
    end.
Proof. destruct item as [c|v|h f]; simpl; [by destruct (matcher c) | done | done]. Qed.

Lemma find_item_None (matcher : Component.t → bool) (arg : string) (l : list entity) :
  find_item matcher arg l = None ↔ Forall (λ item, hit matcher arg item = None) l.
Proof.
  induction l as [|item l IH]; [by split; [constructor|]|].
  rewrite find_item_cons, Forall_cons.
  destruct (hit matcher arg item); [by split; [|intros [? _]]|].
  rewrite IH. by split; [|intros [_ ?]].
Qed.

Lemma find_item_first (matcher : Component.t → bool) (arg : string)
  (l1 l2 : list entity) (item e : entity) :
  Forall (λ item, hit matcher arg item = None) l1 →
  hit matcher arg item = Some e →
  find_item matcher arg (l1 ++ item :: l2) = Some e.
Proof.
  intros Hl1 Hitem. induction Hl1 as [|x l1 Hx _ IH]; simpl app.
  - by rewrite find_item_cons, Hitem.
  - by rewrite find_item_cons, Hx.
Qed.

Lemma find_item_Some (matcher : Component.t → bool) (arg : string) (l : list entity)
  (e : entity) :
  find_item matcher arg l = Some e →
  ∃ l1 item l2, l = l1 ++ item :: l2
                ∧ Forall (λ item, hit matcher arg item = None) l1
                ∧ hit matcher arg item = Some e.
Proof.
  induction l as [|x l IH]; [done|].
  rewrite find_item_cons. destruct (hit matcher arg x) as [e'|] eqn:Hx.
  - intros [= ->]. by exists [], x, l.
  - intros (l1 & item & l2 & -> & Hl1 & Hitem)%IH.
    exists (x :: l1), item, l2. split; [done|]. split; [by constructor | done].
Qed.

Lemma find_app {A} (f : A → bool) (l1 l2 : list A) :
  List.find f (l1 ++ l2) =
    match List.find f l1 with Some x => Some x | None => List.find f l2 end.
Proof. induction l1 as [|x l1 IH]; [done|]. simpl. by destruct (f x). Qed.

Lemma find_variant_variants (arg : string) :
  find_variant arg (items this)
  = IsVariant <$> List.find (λ v, String.eqb (Variant.handle v) (replace_at arg))
                            (variants this).
Proof.
  rewrite variants_concat. unfold components.
  induction (items this) as [|item l IH]; [done|].
  destruct item as [c|v|h f]; simpl; [|done..].
  rewrite find_app. unfold variants_find at 1.
  destruct (List.find _ (Component.variants c)); [done|]. apply IH.
Qed.

Lemma find_None_iff_list {A} (f : A → bool) (l : list A) :
  List.find f l = None ↔ ∀ x, x ∈ l → f x = false.
Proof.
  induction l as [|x l IH]; simpl.
  - split; [by intros _ ? ?%elem_of_nil | done].
  - destruct (f x) eqn:Hx.
    + split; [done|]. intros H. specialize (H x (list_elem_of_here _ _)). congruence.
    + rewrite IH. split.
      * intros H y [->|?]%elem_of_cons; auto.
      * intros H y Hy. apply H. by apply list_elem_of_further.
Qed.

(** X13. [find] answers with the first item, in the order of the items, that
    hits: a component that satisfies the predicate, or a collection whose
    own [find] returns something. Items before it that do not hit are passed
    over, and what follows is not looked at. *)
Theorem find_first_hit (arg : string) (l1 l2 : list entity) (item e : entity) :
  items this = l1 ++ item :: l2 →
  Forall (λ item, hit (find_matcher this arg) arg item = None) l1 →
  hit (find_matcher this arg) arg item = Some e →
  find this arg = Some e.
Proof.
  intros Hitems Hl1 Hitem. rewrite find_unfold, Hitems.
  rewrite (find_item_first _ _ l1 l2 item e Hl1 Hitem).
  rewrite length_app. simpl. by rewrite Nat.add_succ_r.
Qed.

(** X14. [find] finds nothing exactly when no item hits and, for an argument
    that starts with [@], no variant of the source has the handle that
    follows the [@]. *)
Theorem find_nothing_iff (arg : string) :
  find this arg = None
  ↔ Forall (λ item, hit (find_matcher this arg) arg item = None) (items this)
    ∧ (startsWith_at arg = true →
       ∀ v, v ∈ variants this → Variant.handle v ≠ replace_at arg).
Proof.
  rewrite find_unfold.
  destruct (items this) as [|item l] eqn:Hitems.
  - simpl. split; [|done]. intros _. split; [constructor|].
    intros _ v Hv. rewrite variants_concat in Hv. unfold components in Hv.
    rewrite Hitems in Hv. by apply elem_of_nil in Hv.
  - change (length (item :: l) =? 0)%nat with false. cbv iota. rewrite <- Hitems.
    destruct (find_item _ _ _) as [e|] eqn:Hfind.
    + split; [done|]. intros [Hall _]. apply find_item_None in Hall. congruence.
    + apply find_item_None in Hfind. destruct (startsWith_at arg).
      * rewrite find_variant_variants, fmap_None, find_None_iff_list. split.
        -- intros Hv. split; [done|]. intros _ v Hin Heq.
           specialize (Hv v Hin). apply String.eqb_neq in Hv. done.
        -- intros [_ Hv] v Hin. apply String.eqb_neq. by apply Hv.
      * split; [by split | done].
Qed.

(** X15. What [find] returns is the hit of one of the items, or else, only
    for an argument that starts with [@] and only when no item hits, a
    variant of the source whose handle is the argument without its [@]. *)
Theorem find_sound (arg : string) (e : entity) :
  find this arg = Some e →
  (∃ item, item ∈ items this ∧ hit (find_matcher this arg) arg item = Some e)
  ∨ (startsWith_at arg = true
     ∧ Forall (λ item, hit (find_matcher this arg) arg item = None) (items this)
     ∧ ∃ v, e = IsVariant v ∧ v ∈ variants this
            ∧ Variant.handle v = replace_at arg).
Proof.
  rewrite find_unfold. destruct (length (items this) =? 0)%nat; [done|].
  destruct (find_item _ _ _) as [found|] eqn:Hfind.
  - intros [= ->]. left.
    apply find_item_Some in Hfind as (l1 & item & l2 & Hitems & _ & Hitem).
    exists item. split; [|done]. rewrite Hitems. apply elem_of_app. right. by left.
  - apply find_item_None in Hfind.
    destruct (startsWith_at arg); [|done].
    rewrite find_variant_variants. intros Hv. right. split; [done|]. split; [done|].
    destruct (List.find _ _) as [v|] eqn:Hf; [|done].
    injection Hv as <-. exists v. split; [done|].
    apply find_some in Hf as [Hin Hh]. split; [by apply list_elem_of_In|].
    by apply String.eqb_eq.
Qed.

(** X16. When the argument starts with [@] and no item hits, [find] answers
    with the first variant, in the order of [variants], whose handle is the
    argument without its [@]. *)
Theorem find_variant_fallback (arg : string) :
  startsWith_at arg = true →
  Forall (λ item, hit (find_matcher this arg) arg item = None) (items this) →
  find this arg
  = IsVariant <$> List.find (λ v, String.eqb (Variant.handle v) (replace_at arg))
                            (variants this).
Proof.
  intros Hat Hall. rewrite find_unfold, Hat.
  apply find_item_None in Hall. rewrite Hall, find_variant_variants.
  destruct (length (items this) =? 0)%nat eqn:Hlen; [|done].
  apply Nat.eqb_eq, nil_length_inv in Hlen.
  rewrite variants_concat. unfold components. by rewrite Hlen.
Qed.

Lemma startsWith_at_sigil (h : string) : startsWith_at ("@" +:+ h) = true.
Proof. reflexivity. Qed.

Lemma replace_at_sigil (h : string) : replace_at ("@" +:+ h) = h.
Proof. reflexivity. Qed.

(** X17. With a predicate that compares handles, looking up [@] followed by
    the handle of a component of the source finds that component, provided
    no component before it has the same handle and no collection before it
    finds the reference. *)
Theorem find_by_handle (c : Component.t) (l1 l2 : list entity) :
  (∀ c', _makePredicate this ["handle"; Component.handle c] c'
         = String.eqb (Component.handle c') (Component.handle c)) →
  items this = l1 ++ IsComponent c :: l2 →
  Forall (λ item, match item with
                  | IsComponent c' => Component.handle c' ≠ Component.handle c
                  | IsCollection _ collection_find =>
                      collection_find ("@" +:+ Component.handle c) = None
                  | IsVariant _ => True
                  end) l1 →
  find this ("@" +:+ Component.handle c) = Some (IsComponent c).
Proof.
  intros Hpred Hitems Hl1.
  assert (∀ c', find_matcher this ("@" +:+ Component.handle c) c'
                = String.eqb (Component.handle c') (Component.handle c)) as Hm.
  { intros c'. unfold find_matcher.
    rewrite startsWith_at_sigil, replace_at_sigil. apply Hpred. }
  rewrite find_unfold, Hitems.
  rewrite (find_item_first _ _ l1 l2 (IsComponent c) (IsComponent c)).
  - rewrite length_app. simpl. by rewrite Nat.add_succ_r.
  - eapply Forall_impl; [exact Hl1|]. intros [c'|v|h f] Hitem; simpl; [|done..].
    rewrite Hm. by apply String.eqb_neq in Hitem as ->.
  - simpl. by rewrite Hm, String.eqb_refl.
Qed.

End Tree.

Lemma variants_gathers_witness :
  (∃ c, IsComponent c ∈ items Demo.source ∧ Demo.small ∈ Component.variants c)
  ∧ Demo.small ∈ variants Demo.source.
Proof.
  assert (∃ c, IsComponent c ∈ items Demo.source ∧ Demo.small ∈ Component.variants c) as H.
  { exists Demo.button. split.
    - apply list_elem_of_further, list_elem_of_here.
    - apply list_elem_of_further, list_elem_of_here. }
  split; [exact H|].
  exact (proj2 (proj1 (proj2 (variants_gathers Demo.source)) Demo.small) H).
Defined.

Lemma find_first_hit_witness :
  items Demo.source
  = [IsCollection "atoms" Demo.section_find; IsComponent Demo.button]
    ++ IsComponent Demo.card :: [IsComponent Demo.preview]
  ∧ find Demo.source "@card" = Some (IsComponent Demo.card).
Proof.
  split; [reflexivity|].
  apply (find_first_hit Demo.source "@card"
           [IsCollection "atoms" Demo.section_find; IsComponent Demo.button]
           [IsComponent Demo.preview] (IsComponent Demo.card) (IsComponent Demo.card)).
  - reflexivity.
  - repeat constructor.
  - reflexivity.
Defined.

Lemma find_nothing_iff_witness :
  find Demo.source "@nowhere" = None
  ∧ Forall (λ item, hit (find_matcher Demo.source "@nowhere") "@nowhere" item = None)
           (items Demo.source)
  ∧ (startsWith_at "@nowhere" = true →
     ∀ v, v ∈ variants Demo.source → Variant.handle v ≠ replace_at "@nowhere").
Proof.
  split; [reflexivity|].
  apply (proj1 (find_nothing_iff Demo.source "@nowhere")). reflexivity.
Defined.

Lemma find_sound_witness :
  find Demo.source "@small" = Some (IsVariant Demo.small)
  ∧ ((∃ item, item ∈ items Demo.source
              ∧ hit (find_matcher Demo.source "@small") "@small" item
                = Some (IsVariant Demo.small))
     ∨ (startsWith_at "@small" = true
        ∧ Forall (λ item, hit (find_matcher Demo.source "@small") "@small" item = None)
                 (items Demo.source)
        ∧ ∃ v, IsVariant Demo.small = IsVariant v ∧ v ∈ variants Demo.source
               ∧ Variant.handle v = replace_at "@small")).
Proof.
  split; [reflexivity|].
  apply (find_sound Demo.source "@small" (IsVariant Demo.small)). reflexivity.
Defined.

Lemma find_variant_fallback_witness :
  startsWith_at "@small" = true
  ∧ find Demo.source "@small"
    = IsVariant <$> List.find (λ v, String.eqb (Variant.handle v) (replace_at "@small"))
                              (variants Demo.source).
Proof.
  split; [reflexivity|].
  apply (find_variant_fallback Demo.source "@small"); [reflexivity|].
  repeat constructor.
Defined.

Lemma find_by_handle_witness :
  find Demo.source ("@" +:+ Component.handle Demo.card) = Some (IsComponent Demo.card).
Proof.
  apply (find_by_handle Demo.source Demo.card
           [IsCollection "atoms" Demo.section_find; IsComponent Demo.button]
           [IsComponent Demo.preview]).
  - intros c'. reflexivity.
  - reflexivity.
  - repeat constructor. discriminate.
Defined.

(** ** More on the render pipeline                                         *)

Section Rendering.

Variable this : ComponentSource.
Variable latency : nat → nat.

(** *** Template paths *)

(** X18. Rendering a template path that is not empty logs nothing, invokes
    the engine once when the file can be read (with the path, the content of
    the file and the context as it was passed) and not at all otherwise, and
    rejects exactly when reading the file or the engine fails: nothing is
    swallowed on this branch. *)
Theorem render_template_path (p : string) (context : value) (opts : option Options) :
  p ≠ "" →
  Forall (λ ev, ∀ a, ev ≠ ConsoleError a)
         (events (render this latency (TemplatePath p) context opts))
  ∧ engine_invocations (events (render this latency (TemplatePath p) context opts))
    = match readFileAsync this p with
      | Resolved content => [(Some p, content, context)]
      | Rejected _ => []
      end
  ∧ ∀ err,
      outcome (render this latency (TemplatePath p) context opts) = Rejected err
      ↔ readFileAsync this p = Rejected err
        ∨ ∃ content, readFileAsync this p = Resolved content
                     ∧ engine this (Some p) content context = Rejected err.
Proof.
  intros Hp.
  assert (render this latency (TemplatePath p) context opts
          = (content ← await (readFileAsync this p);
             engine_render this (Some p) content context)) as ->.
  { unfold render, render_with. simpl falsy.
    by destruct (String.eqb_spec p "") as [?|_]. }
  rewrite bind_await. destruct (readFileAsync this p) as [content|err0].
  - split; [|split]; [by repeat constructor | done |].
    intros err. simpl. split; [intros H; right; by exists content|].
    intros [[=]|(content' & [= <-] & H)]. done.
  - split; [|split]; [constructor | done |].
    intros err. simpl. split; [intros [= ->]; by left|].
    intros [[= ->]|(content' & [=] & _)]. done.
Qed.

(** *** Falsy contexts *)

Lemma pipeline_falsy_context (callback : Variant.t → obj → Async (option string))
  (e : entity) (context : value) (useLayout : bool) :
  truthy context = false →
  pipeline this latency callback e context useLayout
  = pipeline this latency callback e VUndefined useLayout.
Proof.
  intros Hf. unfold pipeline, _renderVariant, _renderCollatedComponent.
  destruct e as [c|v|h f]; [|by rewrite !js_or_falsy|done].
  rewrite !(js_or_falsy context) by done.
  rewrite !(js_or_falsy VUndefined) by done.
  destruct (default_variant c); [|done]. by rewrite !js_or_falsy.
Qed.

(** X19. For an entity, a falsy context ([null], [false], [0], the empty
    string) renders as [undefined] does, in what comes late as well. *)
Theorem render_falsy_context (e : entity) (context : value) (opts : option Options) :
  truthy context = false →
  render this latency (Entity e) context opts
  = render this latency (Entity e) VUndefined opts
  ∧ render_aftermath this latency e context = render_aftermath this latency e VUndefined.
Proof.
  intros Hf. split.
  - rewrite !render_entity. by rewrite pipeline_falsy_context.
  - unfold render_aftermath. by rewrite (js_or_falsy context).
Qed.

(** *** Components without variants *)

(** X20. A component without variants, once the source has loaded: collated,
    and with no layout to wrap, it renders to the empty string and logs
    nothing; not collated, it has no default variant, so the render logs one
    error and resolves with [undefined]. *)
Theorem render_without_variants (c : Component.t) (context : value) (opts : option Options) :
  Component.variants c = [] →
  load this = Resolved tt →
  (Component.collated c = true →
   wants_layout opts && handle_set (Component.preview c) = false →
   render this latency (Entity (IsComponent c)) context opts = ([], Resolved (Some "")))
  ∧ (Component.collated c = false →
     ∃ err, render this latency (Entity (IsComponent c)) context opts
            = ([ConsoleError (LogError err)], Resolved None)).
Proof.
  intros Hv Hload. split.
  - intros Hc Hl. rewrite render_entity. unfold pipeline, _renderCollatedComponent.
    rewrite Hload, Hc, Hv. simpl List.map.
    rewrite all_nil, bind_await, bind_pure, !bind_mret_l.
    simpl entity_preview. by rewrite Hl.
  - intros Hc. eexists. rewrite render_entity. unfold pipeline, default_variant.
    rewrite Hload, Hc, Hv. by destruct (Component.marked c).
Qed.

(** *** The layout stage *)

Lemma pipeline_rendered_entity (callback : Variant.t → obj → Async (option string))
  (e : entity) (context : value) (useLayout : bool) :
  pipeline this latency callback e context useLayout
  = (rendered ← pipeline this latency callback e context false;
     if useLayout && handle_set (entity_preview (rendered_entity e)) then
       _wrapInLayout this rendered (default "" (entity_preview (rendered_entity e)))
                     (Some {[ "_target" := entity_toJSON (rendered_entity e) ]})
     else mret rendered).
Proof.
  unfold pipeline. rewrite bind_assoc. apply bind_ext. intros _.
  destruct e as [c|v|h f]; simpl rendered_entity.
  - destruct (Component.collated c).
    + rewrite !bind_assoc. apply bind_ext. intros rendered.
      rewrite !bind_mret_l. cbv beta iota delta [andb]. by rewrite bind_mret_l.
    + rewrite !bind_assoc. apply bind_ext. intros rendered.
      rewrite !bind_mret_l. cbv beta iota delta [andb]. by rewrite bind_mret_l.
  - rewrite !bind_assoc. apply bind_ext. intros rendered.
    rewrite !bind_mret_l. cbv beta iota delta [andb]. by rewrite bind_mret_l.
  - reflexivity.
Qed.

Lemma render_wrapped (e : entity) (context : value) (t : list event)
  (rendered : option string) :
  pipeline this latency (render_variant this latency) e context false
    = (t, Resolved rendered) →
  handle_set (entity_preview (rendered_entity e)) = true →
  render this latency (Entity e) context (Some {| useLayout := true |})
  = match _wrapInLayout this rendered (default "" (entity_preview (rendered_entity e)))
                        (Some {[ "_target" := entity_toJSON (rendered_entity e) ]}) with
    | (t', Resolved wrapped) => (t ++ t', Resolved wrapped)
    | (t', Rejected err) => (t ++ t' ++ [ConsoleError (LogError err)], Resolved None)
    end.
Proof.
  intros Hinner Hset. rewrite render_entity. simpl wants_layout.
  rewrite pipeline_rendered_entity, Hinner, Hset. simpl andb. cbv iota.
  unfold mbind at 1, Async_bind, andThen.
  destruct (_wrapInLayout _ _ _ _) as [t' [wrapped|err]]; [done|].
  simpl. by rewrite app_assoc.
Qed.

(** X21. Asking for the layout changes nothing when the inner rendering
    fails, or when the entity that was rendered (the default variant for a
    component that is not collated) has no preview. Otherwise the inner
    markup is handed to [_wrapInLayout] with that preview handle and
    [{_target: entity.toJSON()}], after the events of the inner rendering; a
    failure of the wrapping is logged and swallowed like any other. *)
Theorem render_layout_stage (e : entity) (context : value) (t : list event) :
  let inner := pipeline this latency (render_variant this latency) e context false in
  let target := rendered_entity e in
  let asked := Some {| useLayout := true |} in
  (∀ err, inner = (t, Rejected err) →
     render this latency (Entity e) context asked
     = render this latency (Entity e) context None)
  ∧ (handle_set (entity_preview target) = false →
     render this latency (Entity e) context asked
     = render this latency (Entity e) context None)
  ∧ (∀ rendered, inner = (t, Resolved rendered) →
     handle_set (entity_preview target) = true →
     render this latency (Entity e) context asked
     = match _wrapInLayout this rendered (default "" (entity_preview target))
                           (Some {[ "_target" := entity_toJSON target ]}) with
       | (t', Resolved wrapped) => (t ++ t', Resolved wrapped)
       | (t', Rejected err) => (t ++ t' ++ [ConsoleError (LogError err)], Resolved None)
       end).
Proof.
  intros inner target asked. subst inner target asked.
  split; [|split].
  - intros err Hinner. rewrite !render_entity. simpl wants_layout.
    by rewrite (pipeline_rendered_entity _ e context true), Hinner.
  - intros Hset. rewrite !render_entity. simpl wants_layout.
    rewrite (pipeline_rendered_entity _ e context true), Hset, andb_false_r.
    by rewrite bind_mret_r.
  - apply render_wrapped.
Qed.

End Rendering.

Lemma render_template_path_witness :
  "pages/home.hbs" ≠ ""
  ∧ engine_invocations
      (events (render Demo.source Demo.in_turn (TemplatePath "pages/home.hbs")
                      (Demo.titled "Home") None))
    = [(Some "pages/home.hbs", "<raw>", Demo.titled "Home")].
Proof.
  split; [discriminate|].
  apply (proj1 (proj2 (render_template_path Demo.source Demo.in_turn "pages/home.hbs"
                         (Demo.titled "Home") None ltac:(discriminate)))).
Defined.

Lemma render_falsy_context_witness :
  truthy (VStr "") = false
  ∧ render Demo.source Demo.in_turn (Entity (IsVariant Demo.small)) (VStr "") None
    = render Demo.source Demo.in_turn (Entity (IsVariant Demo.small)) VUndefined None.
Proof.
  split; [reflexivity|].
  apply (proj1 (render_falsy_context Demo.source Demo.in_turn (IsVariant Demo.small)
                  (VStr "") None eq_refl)).
Defined.

Lemma render_without_variants_witness :
  render Demo.source Demo.in_turn (Entity (IsComponent (Demo.bare true))) VUndefined
         (Some {| useLayout := true |})
  = ([], Resolved (Some ""))
  ∧ ∃ err, render Demo.source Demo.in_turn (Entity (IsComponent (Demo.bare false)))
                  VUndefined (Some {| useLayout := true |})
           = ([ConsoleError (LogError err)], Resolved None).
Proof.
  split.
  - apply (proj1 (render_without_variants Demo.source Demo.in_turn (Demo.bare true)
                    VUndefined (Some {| useLayout := true |}) eq_refl eq_refl));
      reflexivity.
  - apply (proj2 (render_without_variants Demo.source Demo.in_turn (Demo.bare false)
                    VUndefined (Some {| useLayout := true |}) eq_refl eq_refl)).
    reflexivity.
Defined.

Lemma render_layout_stage_witness :
  handle_set (entity_preview (rendered_entity (IsComponent Demo.card))) = false
  ∧ render Demo.source Demo.in_turn (Entity (IsComponent Demo.card)) VUndefined
           (Some {| useLayout := true |})
    = render Demo.source Demo.in_turn (Entity (IsComponent Demo.card)) VUndefined None.
Proof.
  split; [reflexivity|].
  apply (proj1 (proj2 (render_layout_stage Demo.source Demo.in_turn
                         (IsComponent Demo.card) VUndefined []))).
  reflexivity.
Defined.

(** *** The events of the gathered tasks *)

Section Gathered.
Context {A : Type}.
Implicit Types (tasks : list (Async A)) (g : gathering A) (order : list nat).

Lemma settle_trail_concat tasks order g :
  trail (foldl (settle tasks) g order) ++ late (foldl (settle tasks) g order)
  ≡ₚ trail g ++ late g
     ++ concat (List.map (λ i, from_option events [] (tasks !! i)) order).
Proof.
  revert g. induction order as [|i order IH]; intros g; simpl.
  - by rewrite app_nil_r.
  - rewrite IH. unfold settle.
    destruct (tasks !! i) as [[t r]|]; [|done].
    destruct (rejection g); [|destruct r]; simpl; solve_Permutation.
Qed.

Lemma concat_lookup_seq tasks :
  concat (List.map (λ i, from_option events [] (tasks !! i)) (seq 0 (length tasks)))
  = concat (List.map events tasks).
Proof.
  f_equal. induction tasks as [|task tasks IH] using rev_ind; [done|].
  rewrite length_app. simpl length. rewrite Nat.add_1_r, seq_S, !map_app.
  simpl List.map. simpl Nat.add. f_equal.
  - rewrite <- IH. apply map_ext_in. intros i Hi%in_seq.
    by rewrite lookup_app_l by lia.
  - rewrite list_lookup_middle by done. done.
Qed.

(** The events of the gathered tasks, the late ones included, are those
    of the tasks in another order: none is lost and none is made
    twice. *)
Lemma all_events_permutation (latency : nat → nat) tasks :
  events (all latency tasks) ++ stragglers latency tasks
  ≡ₚ concat (List.map events tasks).
Proof.
  assert (events (all latency tasks) ++ stragglers latency tasks
          ≡ₚ concat (List.map (λ i, from_option events [] (tasks !! i))
                              (completion_order latency (length tasks)))) as ->.
  { unfold all, stragglers, gather.
    pose proof (settle_trail_concat tasks
      (completion_order latency (length tasks))
      (Gathering [] (replicate (length tasks) None) None [])) as H.
    simpl in H. by destruct (rejection _). }
  rewrite <- concat_lookup_seq.
  assert (∀ (f : nat → list event) l l', l ≡ₚ l' →
            concat (List.map f l) ≡ₚ concat (List.map f l')) as Hperm.
  { intros f l l' H. induction H as [|x l l' _ IH|x y l|l l' l'' _ IH1 _ IH2]; simpl.
    - done.
    - by rewrite IH.
    - rewrite !app_assoc. f_equiv. apply Permutation_app_comm.
    - by rewrite IH1. }
  apply Hperm, completion_order_perm.
Qed.





End Gathered.

(** *** More on collated components *)

Section Collation.

Variable this : ComponentSource.

Lemma render_entity_resolves (latency : nat → nat) (e : entity) (context : value)
  (opts : option Options) :
  ∃ markup, outcome (render this latency (Entity e) context opts) = Resolved markup.
Proof.
  rewrite render_entity, outcome_catch.
  destruct (outcome (pipeline _ _ _ _ _ _)); by eexists.
Qed.

(** The pipeline on a collated component: load, collate, layout stage. *)
Lemma pipeline_collated (latency : nat → nat)
  (callback : Variant.t → obj → Async (option string))
  (c : Component.t) (context : value) (useLayout : bool) :
  Component.collated c = true →
  pipeline this latency callback (IsComponent c) context useLayout
  = (_ ← await (load this);
     rendered ← _renderCollatedComponent this latency callback c context;
     if useLayout && handle_set (Component.preview c) then
       _wrapInLayout this (Some rendered) (default "" (Component.preview c))
                     (Some {[ "_target" := Component.toJSON c ]})
     else mret (Some rendered)).
Proof.
  intros Hc. unfold pipeline. rewrite Hc. apply bind_ext. intros _.
  rewrite bind_assoc. apply bind_ext. intros rendered. by rewrite bind_mret_l.
Qed.

(** X22. The render of a collated component reads the context only under the
    keys [@] followed by a variant handle: two contexts that agree there
    give the same render, in what comes late as well. *)
Theorem collation_context_keys (latency : nat → nat) (c : Component.t)
  (context context' : value) (opts : option Options) :
  Component.collated c = true →
  (∀ v, v ∈ Component.variants c →
        get (js_or context (VObj ∅)) ("@" +:+ Variant.handle v)
        = get (js_or context' (VObj ∅)) ("@" +:+ Variant.handle v)) →
  render this latency (Entity (IsComponent c)) context opts
  = render this latency (Entity (IsComponent c)) context' opts
  ∧ render_aftermath this latency (IsComponent c) context
    = render_aftermath this latency (IsComponent c) context'.
Proof.
  intros Hc Hkeys.
  assert (List.map (collate_variant this (render_variant this latency)
                      (js_or context (VObj ∅))) (Component.variants c)
          = List.map (collate_variant this (render_variant this latency)
                        (js_or context' (VObj ∅))) (Component.variants c)) as Htasks.
  { apply map_ext_in. intros v Hv%list_elem_of_In.
    unfold collate_variant, variant_context. by rewrite (Hkeys v Hv). }
  split.
  - rewrite !render_entity, !pipeline_collated by done.
    unfold _renderCollatedComponent. by rewrite Htasks.
  - unfold render_aftermath. by rewrite Htasks.
Qed.

Lemma collate_variant_outcome (latency : nat → nat) (context : value) (v : Variant.t) :
  collator this = None →
  outcome (collate_variant this (render_variant this latency) context v)
  = match context_resolve this (variant_context context v) (items this) with
    | Resolved ctx => outcome (render_variant this latency v ctx)
    | Rejected err => Rejected err
    end.
Proof.
  intros Hcollator. unfold collate_variant, resolve. rewrite Hcollator, bind_await.
  destruct (context_resolve _ _ _) as [ctx|err]; [|done].
  by rewrite bind_mret_r.
Qed.

(** X23. A collated component, without collator and without layout, on a
    loaded source: when every variant's context resolves, the render
    resolves with a string, whatever else goes wrong inside the variants
    (each one is caught by its own [render]); when the context of one
    variant does not resolve, the whole render resolves with [undefined]. *)
Theorem collation_survives_variants (latency : nat → nat) (c : Component.t)
  (context : value) (opts : option Options) :
  Component.collated c = true →
  collator this = None →
  load this = Resolved tt →
  wants_layout opts && handle_set (Component.preview c) = false →
  ((∀ v, v ∈ Component.variants c →
         ∃ ctx, context_resolve this (variant_context (js_or context (VObj ∅)) v)
                                (items this) = Resolved ctx) →
   ∃ markup, outcome (render this latency (Entity (IsComponent c)) context opts)
             = Resolved (Some markup))
  ∧ ((∃ v err, v ∈ Component.variants c
               ∧ context_resolve this (variant_context (js_or context (VObj ∅)) v)
                                 (items this) = Rejected err) →
     outcome (render this latency (Entity (IsComponent c)) context opts) = Resolved None).
Proof.
  intros Hc Hcollator Hload Hlayout.
  rewrite render_collated_outcome by done. rewrite Hload, Hlayout. simpl outcome at 1.
  cbv iota. rewrite collated_outcome. split.
  - intros Hall.
    assert (∃ markups, Forall2 (λ task a, outcome task = Resolved a)
              (List.map (collate_variant this (render_variant this latency)
                           (js_or context (VObj ∅))) (Component.variants c)) markups)
      as [markups Hm].
    { induction (Component.variants c) as [|v l IH]; [by exists []|].
      destruct IH as [markups Hm].
      { intros w Hw. apply Hall. by apply list_elem_of_further. }
      destruct (Hall v (list_elem_of_here _ _)) as [ctx Hctx].
      destruct (render_entity_resolves latency (IsVariant v) (VObj ctx) None) as [m Hv].
      exists (m :: markups). simpl. constructor; [|done].
      by rewrite collate_variant_outcome, Hctx by done. }
    rewrite (all_resolved latency _ markups Hm). by eexists.
  - intros (v & err & Hv & Hrej).
    destruct (all_rejected latency
                (List.map (collate_variant this (render_variant this latency)
                             (js_or context (VObj ∅))) (Component.variants c)))
      as [err' ->]; [|done].
    apply Exists_exists.
    exists (collate_variant this (render_variant this latency) (js_or context (VObj ∅)) v).
    split.
    + rewrite map_fmap. by apply list_elem_of_fmap_2.
    + exists err. by rewrite collate_variant_outcome, Hrej by done.
Qed.

(** *** Engine invocations and latencies *)

Lemma engine_invocations_app (t t' : list event) :
  engine_invocations (t ++ t') = engine_invocations t ++ engine_invocations t'.
Proof. apply omap_app. Qed.

Lemma engine_invocations_catch {A} (m : Async (option A)) :
  engine_invocations
    (events (catch m (λ err, _ ← console_error (LogError err); mret None)))
  = engine_invocations (events m).
Proof.
  rewrite events_catch. destruct (outcome m); [done|].
  rewrite engine_invocations_app. simpl. by rewrite app_nil_r.
Qed.

Lemma stragglers_outcome {A} (latency : nat → nat) (tasks : list (Async A))
  (values : list A) :
  outcome (all latency tasks) = Resolved values → stragglers latency tasks = [].
Proof.
  intros Ho. destruct (settled_or_rejected tasks) as [[values' Hall]|Hrej].
  - by apply (stragglers_resolved latency tasks values').
  - destruct (all_rejected latency tasks Hrej) as [e He]. congruence.
Qed.

(** The engine invocations that the render of a collated component
    makes, those that come late included. *)
Lemma collated_invocations (latency : nat → nat) (c : Component.t) (context : value)
  (opts : option Options) :
  Component.collated c = true →
  let tasks := List.map (collate_variant this (render_variant this latency)
                           (js_or context (VObj ∅))) (Component.variants c) in
  engine_invocations (events (render this latency (Entity (IsComponent c)) context opts)
                      ++ render_aftermath this latency (IsComponent c) context)
  = match load this with
    | Rejected _ => []
    | Resolved _ =>
        match outcome (all latency tasks) with
        | Resolved markups =>
            engine_invocations (events (all latency tasks))
            ++ engine_invocations
                 (events (if wants_layout opts && handle_set (Component.preview c)
                          then _wrapInLayout this (Some (join newline markups))
                                 (default "" (Component.preview c))
                                 (Some {[ "_target" := Component.toJSON c ]})
                          else mret (Some (join newline markups))))
        | Rejected _ =>
            engine_invocations (events (all latency tasks) ++ stragglers latency tasks)
        end
    end.
Proof.
  intros Hc tasks.
  rewrite engine_invocations_app, render_entity, engine_invocations_catch.
  rewrite pipeline_collated by done.
  unfold render_aftermath. rewrite Hc, bind_await.
  destruct (load this) as [[]|err]; [|done].
  unfold _renderCollatedComponent. fold tasks. rewrite bind_assoc, events_bind.
  destruct (outcome (all latency tasks)) as [markups|e] eqn:Ho.
  - rewrite bind_mret_l, engine_invocations_app.
    rewrite (stragglers_outcome latency tasks markups Ho). simpl.
    by rewrite app_nil_r.
  - by rewrite engine_invocations_app.
Qed.

(** X24. The engine invocations that a render makes, those that come
    late included, are the same, up to their order, whatever the
    latencies of the fanned-out variants. *)
Theorem engine_invocations_latency (latency latency' : nat → nat) (e : entity)
  (context : value) (opts : option Options) :
  engine_invocations (events (render this latency (Entity e) context opts)
                      ++ render_aftermath this latency e context)
  ≡ₚ engine_invocations (events (render this latency' (Entity e) context opts)
                         ++ render_aftermath this latency' e context).
Proof.
  destruct e as [c|v|h f]; [|done..].
  destruct (Component.collated c) eqn:Hc.
  2:{ unfold render_aftermath. rewrite Hc, !render_entity. unfold pipeline.
      by rewrite Hc. }
  rewrite !collated_invocations by done.
  destruct (load this); [|done].
  change (render_variant this latency') with (render_variant this latency).
  set (tasks := List.map (collate_variant this (render_variant this latency)
                            (js_or context (VObj ∅))) (Component.variants c)).
  pose proof (all_events_permutation latency tasks) as Hp.
  pose proof (all_events_permutation latency' tasks) as Hp'.
  destruct (settled_or_rejected tasks) as [[markups Hall]|Hrej].
  - rewrite (stragglers_resolved latency tasks markups Hall), app_nil_r in Hp.
    rewrite (stragglers_resolved latency' tasks markups Hall), app_nil_r in Hp'.
    rewrite (all_resolved latency tasks markups Hall).
    rewrite (all_resolved latency' tasks markups Hall).
    f_equiv. unfold engine_invocations. by rewrite Hp, Hp'.
  - destruct (all_rejected latency tasks Hrej) as [err ->].
    destruct (all_rejected latency' tasks Hrej) as [err' ->].
    unfold engine_invocations. by rewrite Hp, Hp'.
Qed.

End Collation.

Lemma collation_context_keys_witness :
  render Demo.source Demo.in_turn (Entity (IsComponent Demo.card))
         (VObj {[ "@a" := Demo.titled "First" ]}) None
  = render Demo.source Demo.in_turn (Entity (IsComponent Demo.card))
           (VObj {[ "@a" := Demo.titled "First"; "title" := VStr "Unused" ]}) None.
Proof.
  refine (proj1 (collation_context_keys Demo.source Demo.in_turn Demo.card
                   (VObj {[ "@a" := Demo.titled "First" ]})
                   (VObj {[ "@a" := Demo.titled "First"; "title" := VStr "Unused" ]})
                   None eq_refl _)).
  intros v Hv. apply list_elem_of_In in Hv. simpl in Hv.
  destruct Hv as [<-|[<-|[<-|[]]]]; reflexivity.
Defined.

Lemma collation_survives_variants_witness :
  Variant.getContent Demo.unreadable = Rejected (Error "ENOENT: gone.hbs")
  ∧ Demo.unreadable ∈ Component.variants Demo.patchy
  ∧ ∃ markup, outcome (render Demo.source Demo.in_turn (Entity (IsComponent Demo.patchy))
                              VUndefined None)
              = Resolved (Some markup).
Proof.
  split; [reflexivity|]. split; [apply list_elem_of_further, list_elem_of_here|].
  apply (proj1 (collation_survives_variants Demo.source Demo.in_turn Demo.patchy
                  VUndefined None eq_refl eq_refl eq_refl eq_refl)).
  intros v Hv. apply list_elem_of_In in Hv. simpl in Hv.
  destruct Hv as [<-|[<-|[<-|[]]]]; eexists; reflexivity.
Defined.

Section EngineBound.

Variable this : ComponentSource.

Lemma events_bind_pure {A B} (m : Async A) (f : A → B) :
  events (a ← m; mret (f a)) = events m.
Proof.
  rewrite events_bind. destruct (outcome m); [|done]. simpl. by rewrite app_nil_r.
Qed.

Lemma render_variant_invocations (latency : nat → nat) (v : Variant.t) (ctx : obj) :
  length (engine_invocations (events (render_variant this latency v ctx))) ≤ 1.
Proof.
  unfold render_variant.
  change (render_with this latency (λ _ _, resolved None) (Entity (IsVariant v)) (VObj ctx) None)
    with (catch (pipeline this latency (λ _ _, resolved None) (IsVariant v) (VObj ctx) false)
                (λ err, _ ← console_error (LogError err); mret None)).
  rewrite engine_invocations_catch. unfold pipeline, _renderVariant, resolve, engine_render.
  rewrite bind_await. destruct (load this) as [[]|]; [|simpl; lia].
  rewrite !bind_assoc, bind_await.
  destruct (Variant.getContent v) as [content|]; [|simpl; lia].
  rewrite bind_await.
  destruct (context_resolve this _ _) as [r|]; [|simpl; lia].
  cbv zeta. rewrite events_bind. simpl outcome. simpl events at 1.
  destruct (engine this _ _ _) as [m|]; [|simpl; lia].
  rewrite !bind_mret_l. simpl. lia.
Qed.

Lemma collate_variant_invocations (latency : nat → nat) (context : value) (v : Variant.t) :
  length (engine_invocations
            (events (collate_variant this (render_variant this latency) context v))) ≤ 1.
Proof.
  unfold collate_variant, resolve. rewrite bind_await.
  destruct (context_resolve this _ _) as [ctx|]; [|simpl; lia].
  rewrite events_bind.
  pose proof (render_variant_invocations latency v ctx) as Hv.
  destruct (outcome (render_variant this latency v ctx)) as [markup|]; [|done].
  rewrite engine_invocations_app, length_app.
  assert (engine_invocations
            (events (match collator this with
                     | Some collate => await (collate markup v)
                     | None => mret markup
                     end : Async (option string))) = []) as ->; [|simpl; lia].
  by destruct (collator this).
Qed.

(** X25. Rendering a collated component without layout invokes the
    engine at most once for each variant, the invocations that come late
    included. *)
Theorem collation_engine_bound (latency : nat → nat) (c : Component.t)
  (context : value) (opts : option Options) :
  Component.collated c = true →
  wants_layout opts && handle_set (Component.preview c) = false →
  length (engine_invocations
            (events (render this latency (Entity (IsComponent c)) context opts)
             ++ render_aftermath this latency (IsComponent c) context))
  ≤ length (Component.variants c).
Proof.
  intros Hc Hlayout.
  rewrite collated_invocations, Hlayout by done.
  destruct (load this); [|simpl; lia].
  assert (length (engine_invocations
            (events (all latency (List.map
               (collate_variant this (render_variant this latency)
                  (js_or context (VObj ∅))) (Component.variants c)))
             ++ stragglers latency (List.map
               (collate_variant this (render_variant this latency)
                  (js_or context (VObj ∅))) (Component.variants c))))
          ≤ length (Component.variants c)) as Hall.
  { unfold engine_invocations. rewrite all_events_permutation.
    induction (Component.variants c) as [|v l IH]; [done|].
    simpl. rewrite omap_app, length_app.
    pose proof (collate_variant_invocations latency (js_or context (VObj ∅)) v) as Hv.
    unfold engine_invocations in Hv. lia. }
  destruct (outcome (all _ _)); [|exact Hall].
  rewrite engine_invocations_app, length_app in Hall. simpl.
  rewrite app_nil_r. lia.
Qed.

End EngineBound.

Lemma collation_engine_bound_witness :
  engine_invocations
    (events (render Demo.source Demo.in_turn (Entity (IsComponent Demo.cracked))
                    VUndefined None))
  = [(Some "card~a.hbs", "<a>",
      VObj {[ "title" := VStr "A"; "_self" := VObj {[ "handle" := VStr "a" ]} ]})]
  ∧ engine_invocations
      (render_aftermath Demo.source Demo.in_turn (IsComponent Demo.cracked) VUndefined)
    = [(Some "card~c.hbs", "<c>",
        VObj {[ "title" := VStr "C"; "_self" := VObj {[ "handle" := VStr "c" ]} ]})]
  ∧ length (engine_invocations
              (events (render Demo.source Demo.in_turn (Entity (IsComponent Demo.cracked))
                              VUndefined None)
               ++ render_aftermath Demo.source Demo.in_turn (IsComponent Demo.cracked)
                                   VUndefined))
    ≤ length (Component.variants Demo.cracked).
Proof.
  split; [reflexivity|]. split; [reflexivity|].
  apply (collation_engine_bound Demo.source Demo.in_turn Demo.cracked VUndefined None);
    reflexivity.
Defined.

(** *** The order of events around a rejected collation *)

Section RejectionOrder.

Variable this : ComponentSource.


End RejectionOrder.


(** Were the last variant the first to settle, it would be the one
    rendered before the logging, and the first the one rendered after
    it. *)
Example collation_rejection_order_reversed :
  engine_invocations
    (events (render Demo.source Demo.last_first (Entity (IsComponent Demo.cracked))
                    VUndefined None))
  = [(Some "card~c.hbs", "<c>",
      VObj {[ "title" := VStr "C"; "_self" := VObj {[ "handle" := VStr "c" ]} ]})]
  ∧ engine_invocations
      (render_aftermath Demo.source Demo.last_first (IsComponent Demo.cracked) VUndefined)
    = [(Some "card~a.hbs", "<a>",
        VObj {[ "title" := VStr "A"; "_self" := VObj {[ "handle" := VStr "a" ]} ]})].
Proof. split; reflexivity. Qed.

(** *** renderPreview *)

Section Preview.

Variable this : ComponentSource.
Variable latency : nat → nat.

Lemma render_component_as_variant (c : Component.t) (v : Variant.t) (context : value)
  (opts : option Options) :
  Component.collated c = false →
  default_variant c = Some v →
  render this latency (Entity (IsComponent c)) context opts
  = render this latency (Entity (IsVariant v)) context opts.
Proof.
  intros Hc Hd. rewrite !render_entity. unfold pipeline. by rewrite Hc, Hd.
Qed.

Lemma render_own_context (v : Variant.t) (opts : option Options) :
  render this latency (Entity (IsVariant v)) (Variant.context v) opts
  = render this latency (Entity (IsVariant v)) VUndefined opts.
Proof.
  rewrite !render_entity. unfold pipeline, _renderVariant.
  assert (js_or (Variant.context v) (Variant.context v) = js_or VUndefined (Variant.context v))
    as ->; [|done].
  unfold js_or. simpl. by destruct (truthy _).
Qed.

(** X26. [renderPreview] of an entity does not depend on its [useLayout]
    argument: it is the render of the entity under the entity's own context
    with the layout asked for, and it always resolves. For a component that
    is not collated it is the render of the default variant under the
    component's context, and where that context is falsy it is the preview
    of the default variant. *)
Theorem renderPreview_forces_layout (e : entity) (useLayout : value) :
  renderPreview this latency (Entity e) useLayout
  = inr (render this latency (Entity e) (entity_context e) (Some {| useLayout := true |}))
  ∧ (∃ t markup, renderPreview this latency (Entity e) useLayout = inr (t, Resolved markup))
  ∧ (∀ c v, e = IsComponent c →
       Component.collated c = false →
       default_variant c = Some v →
       renderPreview this latency (Entity e) useLayout
       = inr (render this latency (Entity (IsVariant v)) (Component.context c)
                     (Some {| useLayout := true |}))
       ∧ (truthy (Component.context c) = false →
          renderPreview this latency (Entity e) useLayout
          = renderPreview this latency (Entity (IsVariant v)) useLayout)).
Proof.
  split; [reflexivity|]. split.
  - unfold renderPreview.
    destruct (render_entity_resolves this latency e (entity_context e)
                (Some {| useLayout := true |})) as [markup Hm].
    destruct (render _ _ _ _ _) as [t r]. simpl in Hm. subst r. by eexists _, _.
  - intros c v -> Hc Hd. unfold renderPreview. simpl entity_context. split.
    + by rewrite (render_component_as_variant c v).
    + intros Hf. rewrite (render_component_as_variant c v) by done.
      rewrite render_own_context, !render_entity.
      by rewrite pipeline_falsy_context by done.
Qed.

(** *** A layout that is there but cannot be used *)

(** X27. A preview handle that finds a layout which cannot be used loses the
    markup already rendered: when the layout is a component without
    variants, or when the layout's template cannot be read, the render logs
    that error after the events of the inner rendering and resolves with
    [undefined]. *)
Theorem render_unusable_layout (v : Variant.t) (context : value) (t : list event)
  (rendered : option string) (h : string) (found : entity) :
  pipeline this latency (render_variant this latency) (IsVariant v) context false
    = (t, Resolved rendered) →
  Variant.preview v = Some h →
  h ≠ "" →
  find this h = Some found →
  (layout_variant found = None →
   ∃ err, render this latency (Entity (IsVariant v)) context (Some {| useLayout := true |})
          = (t ++ [ConsoleError (LogError err)], Resolved None))
  ∧ (∀ layout layoutContext err,
       layout_variant found = Some (IsVariant layout) →
       context_resolve this (Variant.context layout) (items this) = Resolved layoutContext →
       Variant.getContent layout = Rejected err →
       render this latency (Entity (IsVariant v)) context (Some {| useLayout := true |})
       = (t ++ [ConsoleError (LogError err)], Resolved None)).
Proof.
  intros Hinner Hpreview Hh Hfind.
  assert (handle_set (entity_preview (rendered_entity (IsVariant v))) = true) as Hset.
  { simpl. rewrite Hpreview. simpl. by destruct (String.eqb_spec h ""). }
  pose proof (render_wrapped this latency (IsVariant v) context t rendered Hinner Hset)
    as Hrender.
  simpl rendered_entity in Hrender. simpl entity_preview in Hrender.
  rewrite Hpreview in Hrender. simpl default in Hrender.
  split.
  - intros Hnone. eexists. rewrite Hrender. unfold _wrapInLayout.
    rewrite Hfind, Hnone. simpl. reflexivity.
  - intros layout layoutContext err Hlayout Hctx Hcontent. rewrite Hrender.
    unfold _wrapInLayout, resolve. rewrite Hfind, Hlayout, Hctx, bind_await, Hcontent.
    reflexivity.
Qed.

End Preview.

Lemma renderPreview_forces_layout_witness :
  default_variant Demo.button = Some Demo.large
  ∧ renderPreview Demo.source Demo.in_turn (Entity (IsComponent Demo.button)) (VBool false)
    = inr (render Demo.source Demo.in_turn (Entity (IsVariant Demo.large))
                  (Component.context Demo.button) (Some {| useLayout := true |})).
Proof.
  split; [reflexivity|].
  apply (proj1 (proj2 (proj2 (renderPreview_forces_layout Demo.source Demo.in_turn
                                (IsComponent Demo.button) (VBool false)))
                      Demo.button Demo.large eq_refl eq_refl eq_refl)).
Defined.

Lemma render_unusable_layout_witness :
  pipeline Demo.fragile Demo.in_turn (render_variant Demo.fragile Demo.in_turn)
           (IsVariant Demo.boxed) VUndefined false
    = ([EngineRender (Some "boxed.hbs") "<box>"
          (VObj {[ "title" := VStr "Boxed"; "_self" := VObj {[ "handle" := VStr "boxed" ]} ]})],
       Resolved (Some "<box>[Boxed]-"))
  ∧ find Demo.fragile "@tearing" = Some (IsComponent Demo.tearing)
  ∧ render Demo.fragile Demo.in_turn (Entity (IsVariant Demo.boxed)) VUndefined
           (Some {| useLayout := true |})
    = ([EngineRender (Some "boxed.hbs") "<box>"
          (VObj {[ "title" := VStr "Boxed"; "_self" := VObj {[ "handle" := VStr "boxed" ]} ]})]
       ++ [ConsoleError (LogError (Error "ENOENT: torn.hbs"))], Resolved None).
Proof.
  split; [reflexivity|]. split; [reflexivity|].
  apply (proj2 (render_unusable_layout Demo.fragile Demo.in_turn Demo.boxed VUndefined
                  _ (Some "<box>[Boxed]-") "@tearing" (IsComponent Demo.tearing)
                  eq_refl eq_refl ltac:(discriminate) eq_refl)
               Demo.torn {[ "title" := VStr "Torn" ]} (Error "ENOENT: torn.hbs"));
    reflexivity.
Defined.

(** ** The serialized entity in the engine's context                        *)

Section SelfReference.

Variable this : ComponentSource.





End SelfReference.




(** A [_self] that the caller put into the context of a template string
    reaches the engine as it is. *)
Example renderString_keeps_self :
  events (renderString Demo.source "<h1>" (VObj {[ "_self" := VStr "mine" ]}))
  = [EngineRender None "<h1>" (VObj {[ "_self" := VStr "mine" ]})].
Proof. reflexivity. Qed.

(** ** Collated components, as a whole                                      *)

(** C2, as the code has it. For a collated component, each variant is
    given the value of the supplied context under ["@" + handle] when
    that value is truthy, and its own context otherwise; the context is
    resolved, the variant is rendered by [render] and the collator, when
    there is one, is applied to the markup. What [render] resolves with
    does not depend on the latencies of these renders. Either all of
    them resolve, and then the collation yields their markups joined by
    one newline in the declared order of the variants, a missing markup
    counting as the empty string, and so does [render] once the tree has
    loaded, unless a layout is wrapped around it; or the resolution of a
    context or the collator fails for some variant, and then [render]
    resolves with [undefined], as it does when the tree does not
    load. *)
Theorem collated_render (this : ComponentSource) (component : Component.t) (context : value) :
  Component.collated component = true →
  let supplied := js_or context (VObj ∅) in
  let markup_of (latency : nat → nat) (variant : Variant.t) : Async (option string) :=
    ctx ← resolve this (if truthy (get supplied ("@" +:+ Variant.handle variant))
                        then get supplied ("@" +:+ Variant.handle variant)
                        else Variant.context variant);
    markup ← render this latency (Entity (IsVariant variant)) (VObj ctx) None;
    match collator this with
    | Some collate => await (collate markup variant)
    | None => mret markup
    end in
  let joined (markups : list (option string)) : string :=
    String.concat (String "010" "") (List.map (λ markup, default "" markup) markups) in
  (∀ latency latency' opts,
     outcome (render this latency (Entity (IsComponent component)) context opts)
     = outcome (render this latency' (Entity (IsComponent component)) context opts))
  ∧ (∀ latency0,
       (∃ markups,
          Forall2 (λ variant markup, outcome (markup_of latency0 variant) = Resolved markup)
                  (Component.variants component) markups)
       ∨ Exists (λ variant, ∃ err, outcome (markup_of latency0 variant) = Rejected err)
                (Component.variants component))
  ∧ (∀ latency0 markups,
       Forall2 (λ variant markup, outcome (markup_of latency0 variant) = Resolved markup)
               (Component.variants component) markups →
       ∀ latency,
         outcome (_renderCollatedComponent this latency
                    (λ variant ctx,
                       render this latency (Entity (IsVariant variant)) (VObj ctx) None)
                    component context)
           = Resolved (joined markups)
         ∧ (load this = Resolved tt →
            ∀ opts,
              wants_layout opts && handle_set (Component.preview component) = false →
              outcome (render this latency (Entity (IsComponent component)) context opts)
                = Resolved (Some (joined markups))))
  ∧ (∀ latency0,
       Exists (λ variant, ∃ err, outcome (markup_of latency0 variant) = Rejected err)
              (Component.variants component) →
       ∀ latency opts,
         outcome (render this latency (Entity (IsComponent component)) context opts)
           = Resolved None)
  ∧ (∀ err, load this = Rejected err →
       ∀ latency opts,
         outcome (render this latency (Entity (IsComponent component)) context opts)
           = Resolved None).
Proof.
  intros Hc supplied markup_of joined.
  assert (∀ latency0 markups,
            Forall2 (λ variant markup, outcome (markup_of latency0 variant) = Resolved markup)
                    (Component.variants component) markups →
            ∀ latency,
              outcome (_renderCollatedComponent this latency (render_variant this latency)
                         component context) = Resolved (joined markups)) as Hjoin.
  { intros latency0 markups Hall latency. rewrite collated_outcome.
    rewrite (all_resolved latency _ markups); [done|].
    rewrite map_fmap. apply Forall2_fmap_l. exact Hall. }
  split; [|split; [|split; [|split]]].
  - intros latency latency' opts. rewrite !render_collated_outcome by done.
    destruct (outcome (await (load this))); [|done].
    rewrite !collated_outcome.
    change (render_variant this latency') with (render_variant this latency).
    destruct (settled_or_rejected
                (List.map (collate_variant this (render_variant this latency)
                             (js_or context (VObj ∅))) (Component.variants component)))
      as [[markups Hall]|Hrej].
    + rewrite (all_resolved latency _ markups Hall).
      by rewrite (all_resolved latency' _ markups Hall).
    + destruct (all_rejected latency _ Hrej) as [e ->].
      by destruct (all_rejected latency' _ Hrej) as [e' ->].
  - intros latency0.
    destruct (settled_or_rejected
                (List.map (collate_variant this (render_variant this latency0)
                             (js_or context (VObj ∅))) (Component.variants component)))
      as [[markups Hall]|Hrej].
    + left. exists markups. rewrite map_fmap in Hall.
      apply Forall2_fmap_l in Hall. exact Hall.
    + right. apply Exists_exists in Hrej as (task & Hin & e & He).
      rewrite map_fmap in Hin. apply list_elem_of_fmap in Hin as (v & -> & Hv).
      apply Exists_exists. exists v. split; [done|]. by exists e.
  - intros latency0 markups Hall latency. split; [by apply (Hjoin latency0)|].
    intros Hload opts Hopts. rewrite render_collated_outcome by done.
    rewrite Hload. simpl outcome at 1. cbv beta iota.
    by rewrite (Hjoin latency0 markups Hall latency), Hopts.
  - intros latency0 Hrej latency opts. rewrite render_collated_outcome by done.
    destruct (outcome (await (load this))); [|done].
    rewrite collated_outcome.
    destruct (all_rejected latency
                (List.map (collate_variant this (render_variant this latency)
                             (js_or context (VObj ∅))) (Component.variants component)))
      as [e ->]; [|done].
    apply Exists_exists in Hrej as (v & Hv & err & Herr).
    apply Exists_exists.
    exists (collate_variant this (render_variant this latency) (js_or context (VObj ∅)) v).
    split; [rewrite map_fmap; by apply list_elem_of_fmap_2|].
    exists err. exact Herr.
  - intros err Hload latency opts. rewrite render_collated_outcome by done.
    by rewrite Hload.
Qed.

Lemma collated_render_witness :
  Component.collated Demo.card = true
  ∧ outcome (render Demo.collating Demo.last_first (Entity (IsComponent Demo.card))
               (VObj {[ "@c" := Demo.titled "@site" ]}) None)
    = Resolved (Some (String.concat (String "010" "")
                        ["(a <a>[A]-)"; "(b <b>[B]-)"; "(c <c>[Fractal]-)"]))
  ∧ outcome (render Demo.source Demo.last_first (Entity (IsComponent Demo.cracked))
               VUndefined None)
    = Resolved None.
Proof.
  split; [reflexivity|]. split.
  - refine (proj2 (proj1 (proj2 (proj2 (collated_render Demo.collating Demo.card
                     (VObj {[ "@c" := Demo.titled "@site" ]}) eq_refl)))
                     Demo.in_turn [Some "(a <a>[A]-)"; Some "(b <b>[B]-)";
                                   Some "(c <c>[Fractal]-)"] _ Demo.last_first) _ None _).
    + repeat constructor.
    + reflexivity.
    + reflexivity.
  - refine (proj1 (proj2 (proj2 (proj2 (collated_render Demo.source Demo.cracked
                     VUndefined eq_refl)))) Demo.in_turn _ Demo.last_first None).
    apply Exists_cons_tl, Exists_cons_hd.
    exists (Error "Unknown reference @missing"). reflexivity.
Defined.

(** C2 as stated fails on the context rule: a value that is there under
    the key but is falsy is passed over for the variant's own context. *)
Lemma collation_falls_back_on_falsy_value :
  let context := VObj {[ "@b" := VNull ]} in
  get context "@b" = VNull
  ∧ variant_context_if_present context Demo.b = VNull
  ∧ variant_context context Demo.b = Variant.context Demo.b
  ∧ variant_context context Demo.b ≠ variant_context_if_present context Demo.b
  ∧ outcome (render Demo.source Demo.in_turn (Entity (IsComponent Demo.card)) context None)
    = Resolved (Some (String.concat (String "010" "")
                        ["<a>[A]-"; "<b>[B]-"; "<c>[C]-"])).
Proof.
  repeat split; try reflexivity. discriminate.
Qed.

(** The variants settle in another order, the markup is the same. *)
Example collation_order :
  completion_order Demo.in_turn 3 = [0; 1; 2]
  ∧ completion_order Demo.last_first 3 = [2; 1; 0]
  ∧ List.map (λ ev, match ev with
                    | EngineRender viewPath _ _ => default "" viewPath
                    | ConsoleError _ => ""
                    end)
             (events (render Demo.source Demo.last_first (Entity (IsComponent Demo.card))
                             VUndefined None))
    = ["card~c.hbs"; "card~b.hbs"; "card~a.hbs"]
  ∧ outcome (render Demo.source Demo.last_first (Entity (IsComponent Demo.card))
                    VUndefined None)
    = outcome (render Demo.source Demo.in_turn (Entity (IsComponent Demo.card))
                      VUndefined None).
Proof. repeat split; reflexivity. Qed.

(** A variant that fails inside a collation is caught by its own
    [render] and leaves an empty line. *)
Example collation_with_failed_variant :
  render Demo.source Demo.in_turn (Entity (IsComponent Demo.patchy))
         (VObj {[ "@a" := Demo.titled "One" ]}) None
  = ([EngineRender (Some "card~a.hbs") "<a>"
        (VObj {[ "title" := VStr "One"; "_self" := VObj {[ "handle" := VStr "a" ]} ]});
      ConsoleError (LogError (Error "ENOENT: gone.hbs"));
      EngineRender (Some "card~c.hbs") "<c>"
        (VObj {[ "title" := VStr "C"; "_self" := VObj {[ "handle" := VStr "c" ]} ]})],
     Resolved (Some (String.concat (String "010" "") ["<a>[One]-"; ""; "<c>[C]-"]))).
Proof. reflexivity. Qed.

(** A variant whose context does not resolve rejects the collation on
    the spot: the failure is logged and the render resolves with
    [undefined], while the variant that was still pending is rendered
    afterwards. *)
Example collation_rejected :
  render Demo.source Demo.in_turn (Entity (IsComponent Demo.cracked)) VUndefined None
  = ([EngineRender (Some "card~a.hbs") "<a>"
        (VObj {[ "title" := VStr "A"; "_self" := VObj {[ "handle" := VStr "a" ]} ]});
      ConsoleError (LogError (Error "Unknown reference @missing"))],
     Resolved None)
  ∧ render_aftermath Demo.source Demo.in_turn (IsComponent Demo.cracked) VUndefined
    = [EngineRender (Some "card~c.hbs") "<c>"
         (VObj {[ "title" := VStr "C"; "_self" := VObj {[ "handle" := VStr "c" ]} ]})].
Proof. split; reflexivity. Qed.
